(** * Newton's cradle: the physics core of [NewtonCradle.py]

    The development embeds the pendulum integrator ([Ball.update]), the
    position query ([Ball.get_position]), the chain initialiser
    ([initialize_simulation]) and the iterative collision pass
    ([resolve_collisions]) and proves the properties stated for them.

    Numbers.  The Python code computes with duck-typed numbers ([int] and
    [float]).  The embedding is written once over an interface [PyNum] of the
    operations the code uses, and has two instances.  [float_num] is the
    arithmetic the program runs on: IEEE binary64, with rounding, signed
    zeros, infinities and NaN, and with the C library's sine and cosine as
    parameters.  [R_num] is the arithmetic of the mathematics: a Python
    number is a real number, nothing rounds and nothing overflows.
    Structural facts (which fields change, how many sweeps run, which
    velocities are exchanged) are proved for every implementation of the
    interface.  A statement about the values the program computes is proved
    on [float_num]; where a statement holds in exact arithmetic only, it is
    proved on [R_num] and says so.

    Exceptions.  [Ball.update] divides by [params.rod_length]; a zero divisor
    raises [ZeroDivisionError], and [update] returns [None] there.  No other
    operation of the core raises over the reals.  On [float] numbers
    [math.sin] and [math.cos] raise [ValueError] at an infinite angle; the
    interface takes both as total functions, so a statement on [float_num]
    that evaluates them carries the hypothesis that the angle is not
    infinite.

    Beyond the physics.  The geometry that [draw] computes (support bar and
    rods) and the event handling of [Slider] are embedded as well; Python's
    [round] and pygame's [collidepoint] are parameters of the slider model
    (on [float] numbers [round] raises [OverflowError] at an infinite
    argument; over the reals it cannot), and the calls that paint the screen
    are not modelled.

    Objects.  A [Ball] object is a record value, a chain is a list of such
    values: the pendulums of a chain are distinct objects, as
    [initialize_simulation] builds them.  A method that mutates its receiver
    returns the new record. *)

From Stdlib Require Import ZArith Reals Machin Lra Lia Floats.
From stdpp Require Import base option list.

Set Default Proof Using "Type".

(** ** The numeric interface *)

Class PyNum (num : Type) := {
  (** the value of a Python [int] where it meets the other numbers *)
  of_Z : Z -> num;
  py_add : num -> num -> num;
  py_sub : num -> num -> num;
  py_mul : num -> num -> num;
  (** [x / y] for a divisor that is not zero *)
  py_div : num -> num -> num;
  py_neg : num -> num;
  (** the test on the divisor that makes [/] raise [ZeroDivisionError] *)
  is_zero : num -> bool;
  py_lt : num -> num -> bool;
  math_sin : num -> num;
  math_cos : num -> num;
}.

Declare Scope num_scope.
Delimit Scope num_scope with num.
Infix "+" := py_add : num_scope.
Infix "-" := py_sub : num_scope.
Infix "*" := py_mul : num_scope.
Infix "/" := py_div : num_scope.
Notation "- x" := (py_neg x) : num_scope.
Infix "<?" := py_lt : num_scope.

(** Real numbers as Python numbers. *)
#[export] Instance R_num : PyNum R := {
  of_Z := IZR;
  py_add := Rplus;
  py_sub := Rminus;
  py_mul := Rmult;
  py_div := Rdiv;
  py_neg := Ropp;
  is_zero := fun x => if Req_dec_T x 0 then true else false;
  py_lt := fun x y => if Rlt_dec x y then true else false;
  math_sin := sin;
  math_cos := cos;
}.

(** IEEE binary64 numbers, the [float] of Python, as Python numbers.  The
    sine and the cosine are the C library's and are taken as they come.  An
    [int] becomes the nearest [float]. *)
Definition Z_to_float (z : Z) : float :=
  SF2Prim (binary_normalize prec emax z 0 false).

Definition float_num (libm_sin libm_cos : float -> float) : PyNum float := {|
  of_Z := Z_to_float;
  py_add := PrimFloat.add;
  py_sub := PrimFloat.sub;
  py_mul := PrimFloat.mul;
  py_div := PrimFloat.div;
  py_neg := PrimFloat.opp;
  is_zero := fun x => PrimFloat.eqb x 0;
  py_lt := PrimFloat.ltb;
  math_sin := libm_sin;
  math_cos := libm_cos;
|}.

(** Screen dimensions. *)
Definition WIDTH : Z := 800.
Definition HEIGHT : Z := 600.

Section Cradle.
Context {num : Type} `{PyNum num}.
Local Open Scope num_scope.

(** ** Data *)

(** [class SimulationParams]: the module-level object [params]. *)
Record SimulationParams := mkParams {
  num_balls : Z;
  ball_radius : num;
  ball_mass : num;
  gravity : num;
  rod_length : num;
  damping : num;
  initial_angle : num;
  time_step : num;
}.

(** [class Ball]: a pendulum attached to its pivot. *)
Record Ball := mkBall {
  mass : num;
  angle : num;
  angular_velocity : num;
  angular_acceleration : num;
  pivot : num * num;
}.

(** [Ball.__init__(mass, initial_angle, pivot)]. *)
Definition Ball_init (m theta : num) (pv : num * num) : Ball :=
  {| mass := m;
     angle := theta;
     angular_velocity := of_Z 0;
     angular_acceleration := of_Z 0;
     pivot := pv |}.

(** The assignment [ball.angular_velocity = w]. *)
Definition set_angular_velocity (b : Ball) (w : num) : Ball :=
  {| mass := mass b;
     angle := angle b;
     angular_velocity := w;
     angular_acceleration := angular_acceleration b;
     pivot := pivot b |}.

(** ** [Ball.update] and [Ball.get_position] *)

(** [Ball.update(dt)].  The right-hand side of the first assignment divides by
    [params.rod_length]; a zero divisor raises [ZeroDivisionError] before any
    field is written, which is the result [None]. *)
Definition update (p : SimulationParams) (dt : num) (b : Ball) : option Ball :=
  if is_zero (rod_length p) then None
  else
    let acceleration := (- gravity p) * math_sin (angle b) / rod_length p in
    let velocity := angular_velocity b + acceleration * dt in
    let velocity := velocity * damping p in
    Some {| mass := mass b;
            angle := angle b + velocity * dt;
            angular_velocity := velocity;
            angular_acceleration := acceleration;
            pivot := pivot b |}.

(** [Ball.get_position()]: the ball centre from the pivot and the angle. *)
Definition get_position (p : SimulationParams) (b : Ball) : num * num :=
  (fst (pivot b) + rod_length p * math_sin (angle b),
   snd (pivot b) + rod_length p * math_cos (angle b)).

(** ** [initialize_simulation] *)

(** [range(n)] for a Python [int] [n]: empty when [n <= 0]. *)
Definition range (n : Z) : list Z := map Z.of_nat (seq 0 (Z.to_nat n)).

(** The loop appends one ball per index, in index order.  The only division
    is by the literal [2], which cannot raise. *)
Definition initialize_simulation (p : SimulationParams) : list Ball :=
  let origin_x := of_Z (WIDTH / 2) in
  let origin_y := of_Z 100 in
  let spacing := of_Z 2 * ball_radius p in
  let start_x := origin_x - (of_Z (num_balls p - 1) / of_Z 2) * spacing in
  map (fun i : Z =>
         let theta := if decide (i = (num_balls p - 1)%Z)
                      then initial_angle p else of_Z 0 in
         Ball_init (ball_mass p) theta (start_x + of_Z i * spacing, origin_y))
      (range (num_balls p)).

(** ** [resolve_collisions] *)

Definition tolerance : num := of_Z 1.
Definition max_iter : nat := 10.

(** The state of one sweep: the chain, the flag [collision_found], and a
    counter of the swaps executed so far in the call.  The counter is
    bookkeeping of the model (the source keeps no such count); nothing reads
    it. *)
Record sweep_state := mkSweep {
  st_balls : list Ball;
  collision_found : bool;
  st_swaps : nat;
}.

(** The tuple assignment that exchanges the two velocities: both right-hand
    sides are read before either field is written. *)
Definition swap_velocities (i : nat) (ball_left ball_right : Ball)
    (balls : list Ball) : list Ball :=
  <[i := set_angular_velocity ball_right (angular_velocity ball_left)]>
    (<[(i - 1)%nat := set_angular_velocity ball_left (angular_velocity ball_right)]>
       balls).

(** The contact test of the pair [(i-1, i)]. *)
Definition in_contact (p : SimulationParams) (ball_left ball_right : Ball) : bool :=
  let pos_right := get_position p ball_right in
  let pos_left := get_position p ball_left in
  let dx := fst pos_right - fst pos_left in
  dx <? of_Z 2 * ball_radius p + tolerance.

(** The test on the approximate horizontal velocities [v = L * omega]. *)
Definition closing (p : SimulationParams) (ball_left ball_right : Ball) : bool :=
  let v_right := rod_length p * angular_velocity ball_right in
  let v_left := rod_length p * angular_velocity ball_left in
  (v_right - v_left) <? of_Z 0.

(** The body of the inner loop at index [i].  The loop only visits
    [1 <= i < len(balls)], where both lookups succeed. *)
Definition visit_pair (p : SimulationParams) (i : nat) (st : sweep_state)
    : sweep_state :=
  match st_balls st !! i, st_balls st !! (i - 1)%nat with
  | Some ball_right, Some ball_left =>
      if in_contact p ball_left ball_right then
        if closing p ball_left ball_right then
          {| st_balls := swap_velocities i ball_left ball_right (st_balls st);
             collision_found := true;
             st_swaps := S (st_swaps st) |}
        else st
      else st
  | _, _ => st
  end.

(** [for i in range(n - 1, 0, -1)], entered at index [i]. *)
Fixpoint sweep_from (p : SimulationParams) (i : nat) (st : sweep_state)
    : sweep_state :=
  match i with
  | O => st
  | S j => sweep_from p j (visit_pair p (S j) st)
  end.

(** One sweep: [collision_found = False], then the pairs from the rightmost
    to the leftmost. *)
Definition sweep (p : SimulationParams) (balls : list Ball) (swaps : nat)
    : sweep_state :=
  sweep_from p (length balls - 1)
    {| st_balls := balls; collision_found := false; st_swaps := swaps |}.

(** What a call leaves behind: the chain, and two counters of the model, the
    sweeps run and the swaps executed. *)
Record resolve_result := mkResult {
  res_balls : list Ball;
  res_sweeps : nat;
  res_swaps : nat;
}.

(** [for _ in range(iters)] with the [break] on a sweep without collision. *)
Fixpoint resolve_loop (p : SimulationParams) (iters : nat) (balls : list Ball)
    (sweeps swaps : nat) : resolve_result :=
  match iters with
  | O => {| res_balls := balls; res_sweeps := sweeps; res_swaps := swaps |}
  | S k =>
      let st := sweep p balls swaps in
      if collision_found st
      then resolve_loop p k (st_balls st) (S sweeps) (st_swaps st)
      else {| res_balls := st_balls st;
              res_sweeps := S sweeps;
              res_swaps := st_swaps st |}
  end.

Definition resolve_run (p : SimulationParams) (balls : list Ball)
    : resolve_result :=
  resolve_loop p max_iter balls 0 0.

Definition resolve_collisions (p : SimulationParams) (balls : list Ball)
    : list Ball :=
  res_balls (resolve_run p balls).

(** ** Sequences of calls *)

(** [for ball in balls: ball.update(dt)]: an exception ends the loop. *)
Definition update_all (p : SimulationParams) (dt : num) (balls : list Ball)
    : option (list Ball) :=
  mapM (update p dt) balls.

(** The calls a driver makes on a chain: [balls[i].update(dt)], the frame's
    loop over all balls, and [resolve_collisions(balls)]. *)
Inductive call :=
  | Update (i : nat) (dt : num)
  | UpdateAll (dt : num)
  | Resolve.

(** One call; [balls[i]] out of range raises [IndexError]. *)
Definition run_call (p : SimulationParams) (c : call) (balls : list Ball)
    : option (list Ball) :=
  match c with
  | Update i dt =>
      b ← balls !! i;
      b' ← update p dt b;
      Some (<[i := b']> balls)
  | UpdateAll dt => update_all p dt balls
  | Resolve => Some (resolve_collisions p balls)
  end.

Fixpoint run_calls (p : SimulationParams) (cs : list call) (balls : list Ball)
    : option (list Ball) :=
  match cs with
  | [] => Some balls
  | c :: cs' => balls' ← run_call p c balls; run_calls p cs' balls'
  end.

(** [for _ in range(n): ball.update(dt)], as the tests drive one ball. *)
Fixpoint update_n (p : SimulationParams) (dt : num) (n : nat) (b : Ball)
    : option Ball :=
  match n with
  | O => Some b
  | S n' => b' ← update p dt b; update_n p dt n' b'
  end.

(** The body of the main loop while the simulation runs. *)
Definition step (p : SimulationParams) (balls : list Ball) : option (list Ball) :=
  run_calls p [UpdateAll (time_step p); Resolve] balls.

End Cradle.

Arguments SimulationParams num : clear implicits.
Arguments Ball num : clear implicits.
Arguments sweep_state num : clear implicits.
Arguments resolve_result num : clear implicits.
Arguments call num : clear implicits.

(** * The vocabulary of the statements *)

Section Vocabulary.
Context {num : Type} `{PyNum num}.
Local Open Scope num_scope.

(** The fields of a ball other than its angular velocity. *)
Definition frame_of (b : Ball num) : num * num * num * (num * num) :=
  (mass b, angle b, angular_acceleration b, pivot b).

(** The pair [(i-1, i)] is swapped by a visit. *)
Definition qualifies (p : SimulationParams num) (balls : list (Ball num))
    (i : nat) : bool :=
  match balls !! i, balls !! (i - 1)%nat with
  | Some ball_right, Some ball_left =>
      in_contact p ball_left ball_right && closing p ball_left ball_right
  | _, _ => false
  end.

(** The invariant of a call: the fields outside the velocities, the multiset
    of velocities, and the agreement of the flag with the counter. *)
Record visit_inv (w0 : nat) (st st' : sweep_state num) : Prop := {
  inv_frame : map frame_of (st_balls st') = map frame_of (st_balls st);
  inv_perm : map angular_velocity (st_balls st') ≡ₚ map angular_velocity (st_balls st);
  inv_swaps : st_swaps st <= st_swaps st';
  inv_found :
    (collision_found st = true <-> w0 < st_swaps st) ->
    (collision_found st' = true <-> w0 < st_swaps st');
}.

(** Two balls agree in what the dynamics reads: angle, angular velocity and
    pivot.  Mass and the stored acceleration may differ. *)
Definition same_motion (b1 b2 : Ball num) : Prop :=
  angle b1 = angle b2 /\
  angular_velocity b1 = angular_velocity b2 /\
  pivot b1 = pivot b2.

Definition same_sweep_state (st1 st2 : sweep_state num) : Prop :=
  Forall2 same_motion (st_balls st1) (st_balls st2) /\
  collision_found st1 = collision_found st2 /\
  st_swaps st1 = st_swaps st2.

End Vocabulary.

(** ** Real-valued chains *)

Section RealData.
Local Open Scope R_scope.

(** The sum of the angular velocities along a chain. *)
Definition total_angular_velocity (balls : list (Ball R)) : R :=
  foldr Rplus 0 (map angular_velocity balls).

(** The energies that [test_conservation_with_no_damping] computes. *)
Definition kinetic_energy (p : SimulationParams R) (b : Ball R) : R :=
  1 / 2 * mass b * (rod_length p * angular_velocity b) ^ 2.

Definition potential_energy (p : SimulationParams R) (b : Ball R) : R :=
  mass b * gravity p * (rod_length p * (1 - cos (angle b))).

Definition energy (p : SimulationParams R) (b : Ball R) : R :=
  kinetic_energy p b + potential_energy p b.


(** The parameters that [SimulationParams.__init__] sets. *)
Definition default_params : SimulationParams R :=
  {| num_balls := 5;
     ball_radius := 20;
     ball_mass := 1;
     gravity := 50;
     rod_length := 200;
     damping := 1;
     initial_angle := PI / 4;
     time_step := 1 / 60 |}.

(** The default parameters with the damping of [test_parameter_modification]. *)
Definition damped_params : SimulationParams R :=
  {| num_balls := 5;
     ball_radius := 20;
     ball_mass := 1;
     gravity := 50;
     rod_length := 200;
     damping := 0.95;
     initial_angle := PI / 4;
     time_step := 1 / 60 |}.

(** A ball of mass [m] hanging straight down from [(x, 100)], with angular
    velocity [w]. *)
Definition hanging_ball (m x w : R) : Ball R :=
  set_angular_velocity (Ball_init m 0 (x, 100)) w.

(** A ball of mass [1] raised to [theta] and at rest, as
    [initialize_simulation] leaves the rightmost ball. *)
Definition raised_ball (theta : R) : Ball R := Ball_init 1 theta (400, 100).



(** The fastest pendulum the sliders can set: the largest gravity, [100],
    on the shortest rod, [100]. *)
Definition fast_params : SimulationParams R :=
  {| num_balls := 5;
     ball_radius := 20;
     ball_mass := 1;
     gravity := 100;
     rod_length := 100;
     damping := 1;
     initial_angle := PI / 4;
     time_step := 1 / 60 |}.

End RealData.

(** ** Binary64 chains *)

Section FloatData.
Local Open Scope float_scope.

(** The default parameters in binary64; [initial_angle] is the [float] that
    [math.pi / 4] evaluates to. *)
Definition default_params64 : SimulationParams float :=
  {| num_balls := 5;
     ball_radius := 20;
     ball_mass := 1;
     gravity := 50;
     rod_length := 200;
     damping := 1;
     initial_angle := 0x1.921fb54442d18p-1;
     time_step := 1 / 60 |}.

(** The balls of [TestResolveCollisions]: mass [1], angle [0], pivot
    [(x, 100)], angular velocity [w]. *)
Definition hanging_ball64 (x w : float) : Ball float :=
  {| mass := 1;
     angle := 0;
     angular_velocity := w;
     angular_acceleration := 0;
     pivot := (x, 100) |}.

(** A ball of mass [1] at the angle [theta], with angular velocity [w]. *)
Definition raised_ball64 (theta w : float) : Ball float :=
  {| mass := 1;
     angle := theta;
     angular_velocity := w;
     angular_acceleration := 0;
     pivot := (400, 100) |}.

(** The default parameters for a chain of two balls of the given radius. *)
Definition pair_params64 (radius : float) : SimulationParams float :=
  {| num_balls := 2;
     ball_radius := radius;
     ball_mass := 1;
     gravity := 50;
     rod_length := 200;
     damping := 1;
     initial_angle := 0;
     time_step := 1 / 60 |}.

(** The default parameters with the given rod length and damping factor. *)
Definition rod_params64 (rod d : float) : SimulationParams float :=
  {| num_balls := 5;
     ball_radius := 20;
     ball_mass := 1;
     gravity := 50;
     rod_length := rod;
     damping := d;
     initial_angle := 0x1.921fb54442d18p-1;
     time_step := 1 / 60 |}.

(** The value of [math.sin(0.5)]: the binary64 number nearest to the sine
    of one half. *)
Definition sin_half : float := 0x1.eaee8744b05fp-2.

(** Stand-ins for the C library's sine and cosine in the examples that hang
    every ball straight down, where only the values at [0] are read: the
    first terms of the two series, exact at [0]. *)
Definition series_sin (x : float) : float := x - x * x * x / 6.
Definition series_cos (x : float) : float := 1 - x * x / 2.

(** The abscissa that [initialize_simulation] computes for pivot [i] of a
    chain of [n] balls: [start_x + i * spacing]. *)
Definition pivot_x64 (n : Z) (radius : float) (i : Z) : float :=
  Z_to_float (WIDTH / 2)
  - Z_to_float (n - 1) / Z_to_float 2 * (Z_to_float 2 * radius)
  + Z_to_float i * (Z_to_float 2 * radius).

(** The test that pivots [i] and [i + 1] of a chain of [n] balls of the
    integer radius [r] lie exactly [2 * r] apart, in increasing order; and
    the same test over every chain of at most [max_n] balls and every radius
    from [1] to [max_r]. *)
Definition spaced64 (n r i : Z) : bool :=
  let radius := Z_to_float r in
  PrimFloat.Leibniz.eqb (pivot_x64 n radius (i + 1) - pivot_x64 n radius i)
    (2 * radius)
  && (pivot_x64 n radius i <? pivot_x64 n radius (i + 1)).

Definition spacing_table64 (max_n max_r : Z) : bool :=
  forallb (fun n =>
    forallb (fun r =>
      forallb (fun i => spaced64 n (r + 1) i) (range (n - 1)))
      (range max_r))
    (range (max_n + 1)).

End FloatData.

(** * The rest of the module: drawing geometry and the slider *)

Section Drawing.
Context {num : Type} `{PyNum num}.
Local Open Scope num_scope.

(** [draw]: the rectangle of the support bar, [(left, top, width, height)].
    The bar is drawn only for a chain that is not empty ([if balls:]);
    [balls[0]] is the first ball and [balls[-1]] the last.  The calls into
    pygame that put the shapes on the screen are not part of the model. *)
Definition support_rect (balls : list (Ball num))
    : option (num * num * num * num) :=
  match head balls, last balls with
  | Some first_ball, Some last_ball =>
      let left_pivot := fst (pivot first_ball) in
      let right_pivot := fst (pivot last_ball) in
      let origin_y := snd (pivot first_ball) in
      Some (left_pivot - of_Z 20, origin_y - of_Z 10,
            (right_pivot - left_pivot) + of_Z 40, of_Z 10)
  | _, _ => None
  end.

(** [draw]: the end points of the rod drawn for each ball, from its pivot to
    [ball.get_position()]. *)
Definition draw_rods (p : SimulationParams num) (balls : list (Ball num))
    : list ((num * num) * (num * num)) :=
  map (fun ball => (pivot ball, get_position p ball)) balls.

(** Every adjacent pair of the chain passes the contact test. *)
Definition touching (p : SimulationParams num) (balls : list (Ball num)) : Prop :=
  forall j ball_left ball_right,
    balls !! j = Some ball_left -> balls !! S j = Some ball_right ->
    in_contact p ball_left ball_right = true.

(** No adjacent pair of the chain would be swapped by a sweep. *)
Definition settled (p : SimulationParams num) (balls : list (Ball num)) : Prop :=
  forall i, 1 <= i < length balls -> qualifies p balls i = false.

End Drawing.

(** [class Slider].  The rectangle is a [pygame.Rect], whose fields are
    integers; event positions are integer pairs. *)
Module Slider.

Record Rect := mkRect {
  x : Z;
  y : Z;
  width : Z;
  height : Z;
}.

(** The pygame events that [handle_event] tells apart, with the attributes it
    reads. *)
Inductive event :=
  | MOUSEBUTTONDOWN (button : Z) (pos : Z * Z)
  | MOUSEBUTTONUP (button : Z) (pos : Z * Z)
  | MOUSEMOTION (pos : Z * Z)
  | OTHER.

Section Model.
Context {num : Type} `{PyNum num}.
Local Open Scope num_scope.

(** Python's built-in [round] with one argument, and
    [pygame.Rect(left, top, width, height).collidepoint(pos)]: both belong to
    libraries and are taken as they come. *)
Variable round : num -> Z.
Variable collidepoint : num -> Z -> Z -> Z -> Z * Z -> bool.

(** The fields that the event handling reads or writes ([label] is text for
    the drawing only). *)
Record t := mk {
  rect : Rect;
  min_val : num;
  max_val : num;
  value : num;
  step : num;
  active : bool;
  handle_radius : Z;
}.

Definition set_active (s : t) (a : bool) : t :=
  {| rect := rect s; min_val := min_val s; max_val := max_val s;
     value := value s; step := step s; active := a;
     handle_radius := handle_radius s |}.

Definition set_value (s : t) (v : num) : t :=
  {| rect := rect s; min_val := min_val s; max_val := max_val s;
     value := v; step := step s; active := active s;
     handle_radius := handle_radius s |}.

(** Python's [max(a, b)] and [min(a, b)]: the first argument is kept unless
    the second is strictly greater, respectively strictly smaller. *)
Definition py_max (a b : num) : num := if a <? b then b else a.
Definition py_min (a b : num) : num := if b <? a then b else a.

(** The abscissa of the handle, as [draw] and [handle_event] compute it; the
    division by [max_val - min_val] raises when the two are equal. *)
Definition handle_x (s : t) : option num :=
  if is_zero (max_val s - min_val s) then None
  else Some (of_Z (x (rect s))
             + (value s - min_val s) / (max_val s - min_val s)
               * of_Z (width (rect s))).

(** The body of the [MOUSEMOTION] branch: the new value for a pointer at
    abscissa [pos_x].  Dividing by a zero [rect.width] raises. *)
Definition dragged_value (s : t) (pos_x : Z) : option num :=
  let rel_x := Z.max 0 (Z.min (pos_x - x (rect s)) (width (rect s))) in
  if decide (width (rect s) = 0%Z) then None
  else
    let v := min_val s
             + (max_val s - min_val s) * of_Z rel_x / of_Z (width (rect s)) in
    let v := if is_zero (step s) then v
             else of_Z (round (v / step s)) * step s in
    Some (py_max (min_val s) (py_min (max_val s) v)).

(** [Slider.handle_event(event)]: the slider after the event and the value
    returned; [None] for [ZeroDivisionError]. *)
Definition handle_event (s : t) (e : event) : option (t * bool) :=
  match e with
  | MOUSEBUTTONDOWN 1 pos =>
      hx ← handle_x s;
      let handle_y := (y (rect s) + height (rect s) / 2)%Z in
      if collidepoint (hx - of_Z (handle_radius s))
           (handle_y - handle_radius s)%Z
           (2 * handle_radius s)%Z (2 * handle_radius s)%Z pos
      then Some (set_active s true, false)
      else Some (s, false)
  | MOUSEBUTTONUP 1 _ => Some (set_active s false, false)
  | MOUSEMOTION pos =>
      if active s then
        v ← dragged_value s (fst pos);
        Some (set_value s v, true)
      else Some (s, false)
  | _ => Some (s, false)
  end.

(** The events of a frame, one after the other ([for slider in sliders:
    slider.handle_event(event)] over successive events, for one slider). *)
Fixpoint handle_events (s : t) (es : list event) : option t :=
  match es with
  | [] => Some s
  | e :: es' => '(s', _) ← handle_event s e; handle_events s' es'
  end.

End Model.

Arguments t num : clear implicits.

End Slider.

Section RealChainData.
Local Open Scope R_scope.

(** The energy of a whole chain. *)
Definition chain_energy (p : SimulationParams R) (balls : list (Ball R)) : R :=
  foldr Rplus 0 (map (energy p) balls).

(** The chain of [test_multiple_ball_cascade]: five balls hanging at the
    default pivots, the rightmost with angular velocity [-0.5]. *)
Definition struck_chain : list (Ball R) :=
  [hanging_ball 1 320 0; hanging_ball 1 360 0; hanging_ball 1 400 0;
   hanging_ball 1 440 0; hanging_ball 1 480 (-0.5)].

(** A slider of the module, as [Slider.__init__] leaves it, over the track
    [Rect(50, 360, 300, 10)]. *)
Definition fresh_slider (lo hi v st : R) : Slider.t R :=
  {| Slider.rect := Slider.mkRect 50 360 300 10;
     Slider.min_val := lo;
     Slider.max_val := hi;
     Slider.value := v;
     Slider.step := st;
     Slider.active := false;
     Slider.handle_radius := 10 |}.

(** The same slider while it is being dragged. *)
Definition grabbed_slider (lo hi v st : R) : Slider.t R :=
  Slider.set_active (fresh_slider lo hi v st) true.

(** Python's [round] on a real number: to the nearest integer, a tie going to
    the even one. *)
Definition round_half_even (r : R) : Z :=
  let f := (up r - 1)%Z in
  if Rlt_dec (r - IZR f) (1 / 2) then f
  else if Rlt_dec (1 / 2) (r - IZR f) then (f + 1)%Z
  else if Z.even f then f else (f + 1)%Z.

(** A stand-in for [collidepoint] where no button is pressed. *)
Definition no_hit (left : R) (top w h : Z) (pos : Z * Z) : bool := false.

End RealChainData.

(** * Properties that hold for every implementation of the numbers *)

Section Generic.
Context {num : Type} `{PyNum num}.
Local Open Scope num_scope.
Implicit Types (p : SimulationParams num) (b : Ball num) (balls : list (Ball num)).
Implicit Types (st : sweep_state num).

(** ** What an exchange of velocities touches *)

Lemma frame_of_set_angular_velocity b w :
  frame_of (set_angular_velocity b w) = frame_of b.
Proof. reflexivity. Qed.

(** Around an adjacent pair a chain splits in three, and the exchange rewrites
    the middle. *)
Lemma swap_velocities_split balls j ball_left ball_right :
  balls !! j = Some ball_left ->
  balls !! S j = Some ball_right ->
  exists l1 l2,
    balls = l1 ++ ball_left :: ball_right :: l2 /\
    length l1 = j /\
    swap_velocities (S j) ball_left ball_right balls =
      l1 ++ set_angular_velocity ball_left (angular_velocity ball_right)
         :: set_angular_velocity ball_right (angular_velocity ball_left)
         :: l2.
Proof.
  revert balls. induction j as [|j IH]; intros balls Hl Hr.
  - destruct balls as [|x [|y l2]]; simplify_eq/=.
    by exists [], l2.
  - destruct balls as [|x balls]; [done|]. simpl in Hl, Hr.
    destruct (IH balls Hl Hr) as (l1 & l2 & -> & Hlen & Hswap).
    exists (x :: l1), l2. split_and!; [done|by simpl; f_equal|].
    unfold swap_velocities in *. simpl in *. by rewrite Nat.sub_0_r in Hswap; rewrite Hswap.
Qed.

Lemma swap_velocities_frame balls j ball_left ball_right :
  balls !! j = Some ball_left ->
  balls !! S j = Some ball_right ->
  map frame_of (swap_velocities (S j) ball_left ball_right balls)
  = map frame_of balls.
Proof.
  intros Hl Hr.
  destruct (swap_velocities_split _ _ _ _ Hl Hr) as (l1 & l2 & -> & _ & ->).
  by rewrite !map_app.
Qed.

Lemma swap_velocities_perm balls j ball_left ball_right :
  balls !! j = Some ball_left ->
  balls !! S j = Some ball_right ->
  map angular_velocity (swap_velocities (S j) ball_left ball_right balls)
  ≡ₚ map angular_velocity balls.
Proof.
  intros Hl Hr.
  destruct (swap_velocities_split _ _ _ _ Hl Hr) as (l1 & l2 & -> & _ & ->).
  rewrite !map_app. simpl. apply Permutation_app_head, perm_swap.
Qed.

(** ** One visit, one sweep *)

Lemma visit_pair_skip p i st :
  qualifies p (st_balls st) i = false -> visit_pair p i st = st.
Proof.
  unfold qualifies, visit_pair.
  destruct (st_balls st !! i), (st_balls st !! (i - 1)%nat); try done.
  destruct (in_contact _ _ _), (closing _ _ _); done.
Qed.

Lemma visit_pair_swap p i st ball_left ball_right :
  st_balls st !! i = Some ball_right ->
  st_balls st !! (i - 1)%nat = Some ball_left ->
  in_contact p ball_left ball_right = true ->
  closing p ball_left ball_right = true ->
  visit_pair p i st =
    {| st_balls := swap_velocities i ball_left ball_right (st_balls st);
       collision_found := true;
       st_swaps := S (st_swaps st) |}.
Proof. intros Hr Hl Hc Hv. unfold visit_pair. by rewrite Hr, Hl, Hc, Hv. Qed.

Lemma visit_inv_refl w0 st : visit_inv w0 st st.
Proof. by split. Qed.

Lemma visit_inv_trans w0 st1 st2 st3 :
  w0 <= st_swaps st1 ->
  visit_inv w0 st1 st2 -> visit_inv w0 st2 st3 -> visit_inv w0 st1 st3.
Proof.
  intros Hw [F1 P1 S1 C1] [F2 P2 S2 C2]. split.
  - by rewrite F2.
  - by rewrite P2.
  - lia.
  - intros Hc. by apply C2, C1.
Qed.

Lemma visit_pair_inv p w0 j st :
  w0 <= st_swaps st -> visit_inv w0 st (visit_pair p (S j) st).
Proof.
  intros Hw. unfold visit_pair. simpl. rewrite Nat.sub_0_r.
  destruct (st_balls st !! S j) as [br|] eqn:Hr; [|apply visit_inv_refl].
  destruct (st_balls st !! j) as [bl|] eqn:Hl; [|apply visit_inv_refl].
  destruct (in_contact p bl br); [|apply visit_inv_refl].
  destruct (closing p bl br); [|apply visit_inv_refl].
  split; simpl.
  - by apply swap_velocities_frame.
  - by apply swap_velocities_perm.
  - lia.
  - intros _. split; [lia|done].
Qed.

Lemma sweep_from_inv p w0 i st :
  w0 <= st_swaps st -> visit_inv w0 st (sweep_from p i st).
Proof.
  revert st. induction i as [|j IH]; intros st Hw; simpl.
  - apply visit_inv_refl.
  - pose proof (visit_pair_inv p w0 j st Hw) as Hv.
    eapply visit_inv_trans; [done|exact Hv|]. apply IH.
    destruct Hv. lia.
Qed.

Lemma sweep_inv p balls w :
  visit_inv w {| st_balls := balls; collision_found := false; st_swaps := w |}
    (sweep p balls w).
Proof. apply sweep_from_inv. simpl. lia. Qed.

(** The flag of a sweep says whether the sweep swapped. *)
Lemma sweep_found_iff p balls w :
  collision_found (sweep p balls w) = true <-> w < st_swaps (sweep p balls w).
Proof.
  apply (inv_found _ _ _ (sweep_inv p balls w)). simpl. split; [done|lia].
Qed.

Lemma sweep_from_skip p i st :
  (forall k, 1 <= k <= i -> qualifies p (st_balls st) k = false) ->
  sweep_from p i st = st.
Proof.
  induction i as [|j IH]; intros Hq; simpl; [done|].
  rewrite visit_pair_skip by (apply Hq; lia). apply IH. intros k Hk. apply Hq. lia.
Qed.

Lemma sweep_skip p balls w :
  (forall i, 1 <= i < length balls -> qualifies p balls i = false) ->
  sweep p balls w
  = {| st_balls := balls; collision_found := false; st_swaps := w |}.
Proof.
  intros Hq. unfold sweep. apply sweep_from_skip. simpl.
  intros k Hk. apply Hq. lia.
Qed.

(** A sweep that swaps nothing changes nothing. *)
Lemma sweep_from_no_swap p i st :
  st_swaps (sweep_from p i st) = st_swaps st -> sweep_from p i st = st.
Proof.
  revert st. induction i as [|j IH]; intros st Hs; simpl in *; [done|].
  pose proof (inv_swaps _ _ _ (visit_pair_inv p 0 j st (Nat.le_0_l _))) as H1.
  pose proof (inv_swaps _ _ _
    (sweep_from_inv p 0 j (visit_pair p (S j) st) (Nat.le_0_l _))) as H2.
  assert (Hv : visit_pair p (S j) st = st).
  { apply visit_pair_skip. unfold qualifies.
    destruct (st_balls st !! S j) as [br|] eqn:Hr; [|done].
    destruct (st_balls st !! (S j - 1)%nat) as [bl|] eqn:Hl; [|done].
    destruct (in_contact p bl br) eqn:Hc; [|done].
    destruct (closing p bl br) eqn:Hv; [|done].
    rewrite (visit_pair_swap p (S j) st bl br Hr Hl Hc Hv) in H1, H2, Hs.
    simpl in H1, H2, Hs. exfalso. clear -H1 H2 Hs. lia. }
  rewrite Hv in Hs |- *. by apply IH.
Qed.

Lemma sweep_no_swap p balls w :
  st_swaps (sweep p balls w) = w ->
  sweep p balls w
  = {| st_balls := balls; collision_found := false; st_swaps := w |}.
Proof. intros Hs. unfold sweep in *. by apply sweep_from_no_swap. Qed.

(** ** The loop over sweeps *)

Lemma resolve_loop_last p k balls s w :
  collision_found (sweep p balls w) = false ->
  resolve_loop p (S k) balls s w =
    {| res_balls := st_balls (sweep p balls w);
       res_sweeps := S s;
       res_swaps := st_swaps (sweep p balls w) |}.
Proof. intros Hc. simpl. by rewrite Hc. Qed.

Lemma resolve_loop_again p k balls s w :
  collision_found (sweep p balls w) = true ->
  resolve_loop p (S k) balls s w =
    resolve_loop p k (st_balls (sweep p balls w)) (S s)
      (st_swaps (sweep p balls w)).
Proof. intros Hc. simpl. by rewrite Hc. Qed.

(** The counters of a call: sweeps run after [s], swaps executed after [w]. *)
Lemma resolve_loop_counts p k balls s w :
  s + Nat.min 1 k <= res_sweeps (resolve_loop p k balls s w) <= s + k /\
  w <= res_swaps (resolve_loop p k balls s w).
Proof.
  revert balls s w. induction k as [|k IH]; intros balls s w; simpl; [lia|].
  pose proof (inv_swaps _ _ _ (sweep_inv p balls w)) as Hw. simpl in Hw.
  destruct (collision_found (sweep p balls w)); simpl; [|lia].
  specialize (IH (st_balls (sweep p balls w)) (S s) (st_swaps (sweep p balls w))).
  lia.
Qed.

(** A call exchanges velocities and touches nothing else. *)
Lemma resolve_loop_frame_perm p k balls s w :
  map frame_of (res_balls (resolve_loop p k balls s w)) = map frame_of balls /\
  map angular_velocity (res_balls (resolve_loop p k balls s w))
  ≡ₚ map angular_velocity balls.
Proof.
  revert balls s w. induction k as [|k IH]; intros balls s w; simpl; [done|].
  destruct (sweep_inv p balls w) as [Hf Hp _ _]. simpl in Hf, Hp.
  destruct (collision_found (sweep p balls w)); simpl; [|done].
  destruct (IH (st_balls (sweep p balls w)) (S s) (st_swaps (sweep p balls w)))
    as [Hf' Hp'].
  split; [by rewrite Hf'|by rewrite Hp'].
Qed.

Lemma resolve_collisions_frame p balls :
  map frame_of (resolve_collisions p balls) = map frame_of balls.
Proof. apply resolve_loop_frame_perm. Qed.

Lemma resolve_collisions_velocities_perm p balls :
  map angular_velocity (resolve_collisions p balls)
  ≡ₚ map angular_velocity balls.
Proof. apply resolve_loop_frame_perm. Qed.

Lemma resolve_collisions_length p balls :
  length (resolve_collisions p balls) = length balls.
Proof.
  rewrite <- (length_map frame_of), resolve_collisions_frame.
  apply length_map.
Qed.

(** A chain in which no pair qualifies comes back as it is, after one sweep. *)
Lemma resolve_run_skip p balls :
  (forall i, 1 <= i < length balls -> qualifies p balls i = false) ->
  resolve_run p balls
  = {| res_balls := balls; res_sweeps := 1; res_swaps := 0 |}.
Proof.
  intros Hq. unfold resolve_run, max_iter.
  rewrite resolve_loop_last; by rewrite (sweep_skip p balls 0 Hq).
Qed.

(** ** Masses play no part in the motion *)

Lemma same_motion_set_angular_velocity b1 b2 w :
  same_motion b1 b2 ->
  same_motion (set_angular_velocity b1 w) (set_angular_velocity b2 w).
Proof. intros (Ha & _ & Hp). by split_and!. Qed.

Lemma update_same_motion p dt b1 b2 :
  same_motion b1 b2 ->
  option_Forall2 same_motion (update p dt b1) (update p dt b2).
Proof.
  intros (Ha & Hw & Hp). unfold update.
  destruct (is_zero (rod_length p)); constructor.
  unfold same_motion. simpl. by rewrite Ha, Hw, Hp.
Qed.

Lemma in_contact_same_motion p l1 r1 l2 r2 :
  same_motion l1 l2 -> same_motion r1 r2 ->
  in_contact p l1 r1 = in_contact p l2 r2.
Proof.
  intros (Hal & _ & Hpl) (Har & _ & Hpr).
  unfold in_contact, get_position. simpl. by rewrite Hal, Hpl, Har, Hpr.
Qed.

Lemma closing_same_motion p l1 r1 l2 r2 :
  same_motion l1 l2 -> same_motion r1 r2 ->
  closing p l1 r1 = closing p l2 r2.
Proof.
  intros (_ & Hwl & _) (_ & Hwr & _). unfold closing. by rewrite Hwl, Hwr.
Qed.

Lemma swap_velocities_same_motion i l1 r1 l2 r2 balls1 balls2 :
  same_motion l1 l2 -> same_motion r1 r2 ->
  Forall2 same_motion balls1 balls2 ->
  Forall2 same_motion (swap_velocities i l1 r1 balls1)
    (swap_velocities i l2 r2 balls2).
Proof.
  intros Hl Hr Hb. unfold swap_velocities.
  destruct Hl as (Hal & Hwl & Hpl), Hr as (Har & Hwr & Hpr).
  rewrite Hwl, Hwr.
  apply Forall2_insert; [apply Forall2_insert; [done|]|]; by split_and!.
Qed.

Lemma visit_pair_same_motion p i st1 st2 :
  same_sweep_state st1 st2 ->
  same_sweep_state (visit_pair p i st1) (visit_pair p i st2).
Proof.
  intros (Hb & Hc & Hs). unfold visit_pair.
  pose proof (proj1 (Forall2_lookup _ _ _) Hb i) as Hi.
  pose proof (proj1 (Forall2_lookup _ _ _) Hb (i - 1)%nat) as Hj.
  destruct Hi as [r1 r2 Hr|]; [|by split_and!].
  destruct Hj as [l1 l2 Hl|]; [|by split_and!].
  rewrite (in_contact_same_motion p l1 r1 l2 r2 Hl Hr).
  rewrite (closing_same_motion p l1 r1 l2 r2 Hl Hr).
  destruct (in_contact p l2 r2); [|by split_and!].
  destruct (closing p l2 r2); [|by split_and!].
  split_and!; simpl; [by apply swap_velocities_same_motion|done|by f_equal].
Qed.

Lemma sweep_from_same_motion p i st1 st2 :
  same_sweep_state st1 st2 ->
  same_sweep_state (sweep_from p i st1) (sweep_from p i st2).
Proof.
  revert st1 st2. induction i as [|j IH]; intros st1 st2 Hst; simpl; [done|].
  by apply IH, visit_pair_same_motion.
Qed.

Lemma sweep_same_motion p balls1 balls2 w :
  Forall2 same_motion balls1 balls2 ->
  same_sweep_state (sweep p balls1 w) (sweep p balls2 w).
Proof.
  intros Hb. unfold sweep. rewrite (Forall2_length _ _ _ Hb).
  by apply sweep_from_same_motion.
Qed.

Lemma resolve_loop_same_motion p k balls1 balls2 s w :
  Forall2 same_motion balls1 balls2 ->
  Forall2 same_motion (res_balls (resolve_loop p k balls1 s w))
    (res_balls (resolve_loop p k balls2 s w)).
Proof.
  revert balls1 balls2 s w. induction k as [|k IH]; intros b1 b2 s w Hb; [done|].
  simpl. destruct (sweep_same_motion p b1 b2 w Hb) as (Hb' & -> & ->).
  destruct (collision_found (sweep p b2 w)); [by apply IH|done].
Qed.

Lemma update_all_same_motion p dt balls1 balls2 :
  Forall2 same_motion balls1 balls2 ->
  option_Forall2 (Forall2 same_motion) (update_all p dt balls1)
    (update_all p dt balls2).
Proof.
  unfold update_all. induction 1 as [|b1 b2 l1 l2 Hb _ IH]; simpl.
  - by constructor.
  - destruct (update_same_motion p dt b1 b2 Hb) as [b1' b2' Hb'|]; simpl;
      [|constructor].
    destruct IH as [l1' l2' Hl'|]; simpl; constructor. by constructor.
Qed.

Lemma run_call_same_motion p c balls1 balls2 :
  Forall2 same_motion balls1 balls2 ->
  option_Forall2 (Forall2 same_motion) (run_call p c balls1)
    (run_call p c balls2).
Proof.
  intros Hb. destruct c as [i dt|dt|]; simpl.
  - destruct (proj1 (Forall2_lookup _ _ _) Hb i) as [b1 b2 Hi|]; simpl; [|constructor].
    destruct (update_same_motion p dt b1 b2 Hi) as [b1' b2' Hb'|]; simpl;
      constructor.
    by apply Forall2_insert.
  - by apply update_all_same_motion.
  - constructor. by apply resolve_loop_same_motion.
Qed.

(** ** The chain that [initialize_simulation] builds *)

Lemma range_length (n : Z) : length (range n) = Z.to_nat n.
Proof. unfold range. by rewrite length_map, length_seq. Qed.

Lemma range_lookup (n : Z) (i : nat) (z : Z) :
  range n !! i = Some z <-> z = Z.of_nat i /\ i < Z.to_nat n.
Proof.
  unfold range. rewrite list_lookup_fmap.
  destruct (decide (i < Z.to_nat n)) as [Hi|Hi].
  - rewrite lookup_seq_lt by done. simpl. split; [by intros [= <-]|by intros [-> _]].
  - rewrite lookup_seq_ge by lia. simpl. split; [done|by intros [_ ?]].
Qed.

Lemma initialize_simulation_length p :
  length (initialize_simulation p) = Z.to_nat (num_balls p).
Proof. unfold initialize_simulation. by rewrite length_map, range_length. Qed.

(** The ball at index [i] of the new chain. *)
Lemma initialize_simulation_lookup p (i : nat) b :
  initialize_simulation p !! i = Some b <->
  i < Z.to_nat (num_balls p) /\
  b = Ball_init (ball_mass p)
        (if decide (Z.of_nat i = (num_balls p - 1)%Z)
         then initial_angle p else of_Z 0)
        (of_Z (WIDTH / 2)
           - (of_Z (num_balls p - 1) / of_Z 2) * (of_Z 2 * ball_radius p)
           + of_Z (Z.of_nat i) * (of_Z 2 * ball_radius p),
         of_Z 100).
Proof.
  unfold initialize_simulation. rewrite list_lookup_fmap.
  destruct (range (num_balls p) !! i) as [z|] eqn:Hz; simpl.
  - apply range_lookup in Hz as [-> Hi].
    split; [by intros [= <-]|by intros [_ ->]].
  - split; [done|]. intros [Hi _].
    assert (is_Some (range (num_balls p) !! i)) as [z Hz'].
    { apply lookup_lt_is_Some. by rewrite range_length. }
    congruence.
Qed.

(** ** A chain of two pendulums *)

Lemma sweep_pair p ball_left ball_right w :
  sweep p [ball_left; ball_right] w =
  visit_pair p 1
    {| st_balls := [ball_left; ball_right];
       collision_found := false;
       st_swaps := w |}.
Proof. reflexivity. Qed.

(** A pair in contact and closing is exchanged by the first sweep; when the
    exchanged pair no longer closes, the second sweep ends the call. *)
Lemma resolve_run_pair_swap p ball_left ball_right :
  in_contact p ball_left ball_right = true ->
  closing p ball_left ball_right = true ->
  closing p (set_angular_velocity ball_left (angular_velocity ball_right))
    (set_angular_velocity ball_right (angular_velocity ball_left)) = false ->
  resolve_run p [ball_left; ball_right] =
    {| res_balls :=
         [set_angular_velocity ball_left (angular_velocity ball_right);
          set_angular_velocity ball_right (angular_velocity ball_left)];
       res_sweeps := 2;
       res_swaps := 1 |}.
Proof.
  intros Hc Hv Hv'. unfold resolve_run, max_iter.
  assert (Hs : sweep p [ball_left; ball_right] 0 =
    {| st_balls :=
         [set_angular_velocity ball_left (angular_velocity ball_right);
          set_angular_velocity ball_right (angular_velocity ball_left)];
       collision_found := true;
       st_swaps := 1 |}).
  { rewrite sweep_pair. by rewrite (visit_pair_swap p 1 _ ball_left ball_right). }
  rewrite resolve_loop_again by (by rewrite Hs).
  rewrite Hs. simpl st_balls. simpl st_swaps.
  rewrite resolve_loop_last; rewrite sweep_pair, visit_pair_skip; try done.
  all: unfold qualifies; simpl; rewrite Hv'; apply andb_false_r.
Qed.

Lemma resolve_run_pair_skip p ball_left ball_right :
  in_contact p ball_left ball_right && closing p ball_left ball_right = false ->
  resolve_run p [ball_left; ball_right] =
    {| res_balls := [ball_left; ball_right]; res_sweeps := 1; res_swaps := 0 |}.
Proof.
  intros Hq. apply resolve_run_skip. simpl. intros i Hi.
  assert (i = 1) as -> by lia. done.
Qed.

End Generic.

(** * Real numbers as Python numbers *)

Section RealNumbers.
Local Open Scope R_scope.
Implicit Types (p : SimulationParams R) (b : Ball R) (balls : list (Ball R)).

Lemma R_lt_true (x y : R) : x < y -> (x <? y)%num = true.
Proof. intros Hxy. unfold py_lt. simpl. by destruct (Rlt_dec x y). Qed.

Lemma R_lt_false (x y : R) : ~ x < y -> (x <? y)%num = false.
Proof. intros Hxy. unfold py_lt. simpl. by destruct (Rlt_dec x y). Qed.

Lemma R_is_zero_false (x : R) : x <> 0 -> is_zero x = false.
Proof. intros Hx. unfold is_zero. simpl. by destruct (Req_dec_T x 0). Qed.

Lemma R_is_zero_true : is_zero 0 = true.
Proof. unfold is_zero. simpl. by destruct (Req_dec_T 0 0). Qed.

(** A rod of length zero: the division raises. *)
Lemma update_zero_rod_length p dt b :
  rod_length p = 0 -> update p dt b = None.
Proof. intros HL. unfold update. by rewrite HL, R_is_zero_true. Qed.

Lemma foldr_Rplus_perm (l1 l2 : list R) :
  l1 ≡ₚ l2 -> foldr Rplus 0 l1 = foldr Rplus 0 l2.
Proof. induction 1; simpl; lra. Qed.

Lemma hanging_pair_gap p m1 x1 w1 m2 x2 w2 :
  fst (get_position p (hanging_ball m2 x2 w2))
  - fst (get_position p (hanging_ball m1 x1 w1)) = x2 - x1.
Proof. simpl. rewrite sin_0. lra. Qed.

(** ** The cosine up to second order *)








(** ** Energy over one step and over many *)









(** ** The runaway configuration *)




End RealNumbers.

(** * Binary64 numbers as Python numbers *)

(** The generic lemmas run on IEEE numbers.  First the one fact of binary64
    arithmetic that the collision pass relies on: a difference that is below
    zero is not below zero when taken the other way round (rounding keeps the
    sign, and NaN is below nothing). *)
Section Binary64.
Variables (libm_sin libm_cos : float -> float).
Local Open Scope float_scope.

Lemma binary_round_aux_not_below (m e : Z) (l : location) :
  SFltb (binary_round_aux prec emax false m e l) (S754_zero false) = false.
Proof.
  unfold binary_round_aux.
  destruct (shr_fexp prec emax m e l) as [mrs' e'].
  destruct (shr_fexp prec emax _ e' loc_Exact) as [mrs'' e''].
  destruct (shr_m mrs''); [done| |done].
  by destruct (Z.leb e'' (emax - prec)).
Qed.

Lemma binary_normalize_not_below (m e : Z) :
  (0 <= m)%Z ->
  SFltb (binary_normalize prec emax m e false) (S754_zero false) = false.
Proof.
  intros Hm. unfold binary_normalize.
  destruct m as [|q|q]; [done| |lia].
  unfold binary_round. destruct (shl_align q e _) as [mz ez].
  apply binary_round_aux_not_below.
Qed.

Lemma binary_normalize_below (m e : Z) :
  SFltb (binary_normalize prec emax m e false) (S754_zero false) = true ->
  (m < 0)%Z.
Proof.
  intros Hlt. destruct (Z_lt_le_dec m 0) as [|Hm]; [done|].
  by rewrite binary_normalize_not_below in Hlt.
Qed.

Lemma SFsub_sign (a b : spec_float) :
  SFltb (SFsub prec emax a b) (S754_zero false) = true ->
  SFltb (SFsub prec emax b a) (S754_zero false) = false.
Proof.
  destruct a as [sa|sa| |sa ma ea], b as [sb|sb| |sb mb eb]; simpl;
    try done; try (by destruct sa, sb); try (by destruct sa); try (by destruct sb).
  intros Hlt%binary_normalize_below.
  apply binary_normalize_not_below.
  rewrite Z.min_comm. lia.
Qed.

Lemma float_sub_sign (x y : float) :
  PrimFloat.ltb (x - y) 0 = true -> PrimFloat.ltb (y - x) 0 = false.
Proof.
  rewrite !ltb_spec, !sub_spec. apply SFsub_sign.
Qed.

(** A pair that the code finds in contact and closing is exchanged once, in
    binary64 as over the reals. *)
Lemma resolve_run_pair_binary64
    (p : SimulationParams float) (ball_left ball_right : Ball float) :
  in_contact (H := float_num libm_sin libm_cos) p ball_left ball_right = true ->
  closing (H := float_num libm_sin libm_cos) p ball_left ball_right = true ->
  resolve_run (H := float_num libm_sin libm_cos) p [ball_left; ball_right] =
    {| res_balls :=
         [set_angular_velocity ball_left (angular_velocity ball_right);
          set_angular_velocity ball_right (angular_velocity ball_left)];
       res_sweeps := 2;
       res_swaps := 1 |}.
Proof.
  intros Hc Hv. apply resolve_run_pair_swap; [done..|].
  unfold closing in *. simpl in *.
  change (Z_to_float 0) with 0 in *. by apply float_sub_sign.
Qed.

(** [test_ball_spacing], for the default five balls: the pivots are the
    floats [320, 360, 400, 440, 480], without rounding. *)
Lemma initialize_simulation_binary64 :
  map (fun b => fst (pivot b))
    (initialize_simulation (H := float_num libm_sin libm_cos) default_params64)
  = [320; 360; 400; 440; 480].
Proof. vm_compute. reflexivity. Qed.

(** [test_velocity_swap_on_collision]: velocities [0] and [-0.1] are
    exchanged, provided the library's sine is [0] at [0]. *)
Lemma resolve_collisions_binary64 :
  libm_sin 0 = 0 ->
  resolve_collisions (H := float_num libm_sin libm_cos) default_params64
    [hanging_ball64 100 0; hanging_ball64 140 (-1 / 10)]
  = [hanging_ball64 100 (-1 / 10); hanging_ball64 140 0].
Proof.
  intros Hsin. unfold resolve_collisions.
  rewrite resolve_run_pair_swap; [reflexivity|..].
  - unfold in_contact, get_position. cbn [angle hanging_ball64 math_sin float_num].
    rewrite Hsin. vm_compute. reflexivity.
  - vm_compute. reflexivity.
  - vm_compute. reflexivity.
Qed.

(** A step of [dt = 0] with damping [0.95] takes the angular velocity [1] to
    [0.95], in binary64 as over the reals. *)
Lemma update_zero_dt_binary64 :
  libm_sin 0 = 0 ->
  update (H := float_num libm_sin libm_cos)
    {| num_balls := 5; ball_radius := 20; ball_mass := 1; gravity := 50;
       rod_length := 200; damping := 95 / 100;
       initial_angle := 0x1.921fb54442d18p-1; time_step := 1 / 60 |}
    0 (hanging_ball64 400 1)
  = Some {| mass := 1;
            angle := 0;
            angular_velocity := 95 / 100;
            angular_acceleration := -0;
            pivot := (400, 100) |}.
Proof.
  intros Hsin. unfold update.
  cbn [angle hanging_ball64 math_sin float_num]. rewrite Hsin.
  vm_compute. reflexivity.
Qed.

End Binary64.

(** * The stated properties *)

Section Properties.
Local Open Scope R_scope.







(** C4.  [resolve_collisions] never changes an angle or a pivot (nor a mass
    or a stored acceleration, nor the length of the chain): only angular
    velocities can change.  For two pendulums whose horizontal gap exceeds
    [2 * radius + tolerance], or that are not closing
    ([vRight - vLeft >= 0], in contact or not), the call changes nothing. *)
Theorem resolve_collisions_frame_effect
    (p : SimulationParams R) (balls : list (Ball R))
    (ball_left ball_right : Ball R) :
  (map angle (resolve_collisions p balls) = map angle balls
   /\ map pivot (resolve_collisions p balls) = map pivot balls
   /\ map mass (resolve_collisions p balls) = map mass balls
   /\ map angular_acceleration (resolve_collisions p balls)
      = map angular_acceleration balls)
  /\ (2 * ball_radius p + tolerance
        < fst (get_position p ball_right) - fst (get_position p ball_left)
      \/ 0 <= rod_length p * angular_velocity ball_right
              - rod_length p * angular_velocity ball_left ->
      resolve_collisions p [ball_left; ball_right] = [ball_left; ball_right]).
Proof.
  split.
  - pose proof (resolve_collisions_frame p balls) as Hf.
    split_and!.
    + apply (f_equal (map (fun x => x.1.1.2))) in Hf.
      by rewrite !map_map in Hf.
    + apply (f_equal (map snd)) in Hf. by rewrite !map_map in Hf.
    + apply (f_equal (map (fun x => x.1.1.1))) in Hf.
      by rewrite !map_map in Hf.
    + apply (f_equal (map (fun x => x.1.2))) in Hf.
      by rewrite !map_map in Hf.
  - intros Hno. unfold resolve_collisions.
    rewrite resolve_run_pair_skip; [done|].
    destruct Hno as [Hgap|Hv].
    + apply andb_false_iff. left. apply R_lt_false.
      unfold tolerance in *. simpl in *. lra.
    + apply andb_false_iff. right. apply R_lt_false. simpl in *. lra.
Qed.

(** The scenarios of [test_no_collision_when_separated] (pivots [100] and
    [200]) and of [test_no_collision_when_moving_apart] (pivots [100] and
    [140], velocities [-0.1] and [0.1]). *)
Lemma resolve_collisions_frame_effect_witness :
  resolve_collisions default_params
    [hanging_ball 1 100 0.1; hanging_ball 1 200 0.2]
  = [hanging_ball 1 100 0.1; hanging_ball 1 200 0.2]
  /\ resolve_collisions default_params
       [hanging_ball 1 100 (-0.1); hanging_ball 1 140 0.1]
     = [hanging_ball 1 100 (-0.1); hanging_ball 1 140 0.1].
Proof.
  split.
  - refine (proj2 (resolve_collisions_frame_effect default_params []
              (hanging_ball 1 100 0.1) (hanging_ball 1 200 0.2)) _).
    left. rewrite hanging_pair_gap. unfold tolerance. simpl. lra.
  - refine (proj2 (resolve_collisions_frame_effect default_params []
              (hanging_ball 1 100 (-0.1)) (hanging_ball 1 140 0.1)) _).
    right. simpl. lra.
Defined.

(** C5.  A call of [resolve_collisions] runs at least one and at most
    [max_iter = 10] sweeps.  A sweep that swapped nothing ends the call at
    once and leaves the chain as it was; hence a chain in which no adjacent
    pair qualifies for a swap comes back unchanged after exactly one sweep and
    zero swaps.  A sweep that swapped is followed by another sweep while
    iterations remain, and by none when it was the last allowed one. *)
Theorem resolve_sweep_schedule {num : Type} `{PyNum num}
    (p : SimulationParams num) (balls : list (Ball num)) :
  max_iter = 10%nat
  /\ (1 <= res_sweeps (resolve_run p balls) <= max_iter)%nat
  /\ (forall k bs s w,
        st_swaps (sweep p bs w) = w ->
        resolve_loop p (S k) bs s w
        = {| res_balls := bs; res_sweeps := S s; res_swaps := w |})
  /\ ((forall i, (1 <= i < length balls)%nat -> qualifies p balls i = false) ->
      resolve_run p balls
      = {| res_balls := balls; res_sweeps := 1; res_swaps := 0 |})
  /\ (forall k bs s w,
        (w < st_swaps (sweep p bs w))%nat ->
        resolve_loop p (S (S k)) bs s w
        = resolve_loop p (S k) (st_balls (sweep p bs w)) (S s)
            (st_swaps (sweep p bs w))
        /\ (S (S s) <= res_sweeps (resolve_loop p (S (S k)) bs s w))%nat)
  /\ (forall bs s w, res_sweeps (resolve_loop p 1 bs s w) = S s).
Proof.
  split; [|split; [|split; [|split; [|split]]]].
  - reflexivity.
  - pose proof (resolve_loop_counts p max_iter balls 0 0) as [Hc _].
    unfold resolve_run. revert Hc.
    generalize (res_sweeps (resolve_loop p max_iter balls 0 0)).
    unfold max_iter. intros n Hn. simpl in Hn. lia.
  - intros k bs s w Hs. apply sweep_no_swap in Hs.
    rewrite resolve_loop_last; by rewrite Hs.
  - apply resolve_run_skip.
  - intros k bs s w Hs. apply sweep_found_iff in Hs.
    rewrite (resolve_loop_again p (S k)) by done. split; [done|].
    pose proof (resolve_loop_counts p (S k) (st_balls (sweep p bs w)) (S s)
                  (st_swaps (sweep p bs w))) as [Hc _].
    revert Hc.
    generalize (res_sweeps (resolve_loop p (S k) (st_balls (sweep p bs w))
                  (S s) (st_swaps (sweep p bs w)))).
    intros n Hn. simpl in Hn. lia.
  - intros bs s w. simpl. by destruct (collision_found (sweep p bs w)).
Qed.

(** Two balls hanging [100] apart never qualify: the call is one sweep and no
    swap. *)
Lemma resolve_sweep_schedule_witness :
  resolve_run default_params [hanging_ball 1 100 0.1; hanging_ball 1 200 0.2]
  = {| res_balls := [hanging_ball 1 100 0.1; hanging_ball 1 200 0.2];
       res_sweeps := 1;
       res_swaps := 0 |}.
Proof.
  refine (proj1 (proj2 (proj2 (proj2 (resolve_sweep_schedule default_params
            [hanging_ball 1 100 0.1; hanging_ball 1 200 0.2])))) _).
  intros i Hi. simpl in Hi. assert (i = 1%nat) as -> by lia.
  unfold qualifies. simpl lookup. cbv iota beta.
  apply andb_false_iff. left. apply R_lt_false.
  rewrite hanging_pair_gap. unfold tolerance. simpl. lra.
Defined.

(** C6.  [resolve_collisions] only permutes the angular velocities of the
    chain: the velocities after the call are a permutation of those before
    it, so their sum is the same. *)
Theorem resolve_collisions_permutes_velocities
    (p : SimulationParams R) (balls : list (Ball R)) :
  map angular_velocity (resolve_collisions p balls)
    ≡ₚ map angular_velocity balls
  /\ total_angular_velocity (resolve_collisions p balls)
     = total_angular_velocity balls.
Proof.
  pose proof (resolve_collisions_velocities_perm p balls) as Hp.
  split; [done|]. by apply foldr_Rplus_perm.
Qed.

(** C7.  The masses do not influence the motion: two chains that agree,
    pendulum by pendulum, in angle, angular velocity and pivot (and may differ
    in every mass) are taken by any sequence of [update] and
    [resolve_collisions] calls, with the same parameters, either both to an
    exception or to chains that again agree in angle, angular velocity and
    pivot. *)
Theorem motion_independent_of_mass {num : Type} `{PyNum num}
    (p : SimulationParams num) (cs : list (call num))
    (balls1 balls2 : list (Ball num)) :
  Forall2 same_motion balls1 balls2 ->
  option_Forall2 (Forall2 same_motion)
    (run_calls p cs balls1) (run_calls p cs balls2).
Proof.
  revert balls1 balls2. induction cs as [|c cs IH]; intros balls1 balls2 Hb.
  - by constructor.
  - simpl.
    destruct (run_call_same_motion p c balls1 balls2 Hb) as [b1' b2' Hb'|];
      simpl; [by apply IH|constructor].
Qed.

(** The chain of [test_varying_masses] (masses [1] and [2]) against the same
    chain with masses [3] and [5], over one frame. *)
Lemma motion_independent_of_mass_witness :
  option_Forall2 (Forall2 same_motion)
    (run_calls default_params [UpdateAll (1 / 60); Resolve]
       [hanging_ball 1 100 0.5; hanging_ball 2 140 0])
    (run_calls default_params [UpdateAll (1 / 60); Resolve]
       [hanging_ball 3 100 0.5; hanging_ball 5 140 0]).
Proof.
  apply (motion_independent_of_mass default_params).
  repeat constructor.
Defined.







(** C10.  With a ball count of [0], [initialize_simulation] returns the empty
    chain; the function has no failing path. *)
Theorem initialize_simulation_no_balls {num : Type} `{PyNum num}
    (p : SimulationParams num) :
  num_balls p = 0%Z -> initialize_simulation p = [].
Proof. intros Hn. unfold initialize_simulation. by rewrite Hn. Qed.

Lemma initialize_simulation_no_balls_witness :
  initialize_simulation
    {| num_balls := 0; ball_radius := 20; ball_mass := 1; gravity := 50;
       rod_length := 200; damping := 1; initial_angle := PI / 4;
       time_step := 1 / 60 |} = [].
Proof. by apply (initialize_simulation_no_balls (num := R)). Defined.

End Properties.

(** * Further properties of the module *)

Section ResolveFurther.
Context {num : Type} `{PyNum num}.
Local Open Scope num_scope.
Implicit Types (p : SimulationParams num) (b : Ball num) (balls : list (Ball num)).
Implicit Types (st : sweep_state num).

(** A sweep that swapped nothing has visited only pairs that do not qualify. *)
Lemma sweep_from_no_swap_settled p i st :
  st_swaps (sweep_from p i st) = st_swaps st ->
  forall k, 1 <= k <= i -> qualifies p (st_balls st) k = false.
Proof.
  revert st. induction i as [|j IH]; intros st Hs k Hk; [lia|].
  pose proof (sweep_from_no_swap p (S j) st Hs) as Hst.
  simpl in Hs, Hst.
  pose proof (inv_swaps _ _ _ (visit_pair_inv p 0 j st (Nat.le_0_l _))) as H1.
  pose proof (inv_swaps _ _ _
    (sweep_from_inv p 0 j (visit_pair p (S j) st) (Nat.le_0_l _))) as H2.
  assert (Hq : qualifies p (st_balls st) (S j) = false).
  { unfold qualifies.
    destruct (st_balls st !! S j) as [br|] eqn:Hr; [|done].
    destruct (st_balls st !! (S j - 1)%nat) as [bl|] eqn:Hl; [|done].
    destruct (in_contact p bl br) eqn:Hc; [|done].
    destruct (closing p bl br) eqn:Hv; [|done].
    rewrite (visit_pair_swap p (S j) st bl br Hr Hl Hc Hv) in H1, H2, Hs.
    simpl in H1, H2, Hs. exfalso. clear -H1 H2 Hs. lia. }
  destruct (decide (k = S j)) as [->|Hne]; [done|].
  rewrite (visit_pair_skip p (S j) st Hq) in Hs.
  apply (IH st Hs). lia.
Qed.

Lemma sweep_not_found_settled p balls w :
  collision_found (sweep p balls w) = false ->
  sweep p balls w
    = {| st_balls := balls; collision_found := false; st_swaps := w |}
  /\ settled p balls.
Proof.
  intros Hf.
  assert (Hs : st_swaps (sweep p balls w) = w).
  { pose proof (inv_swaps _ _ _ (sweep_inv p balls w)) as Hle. simpl in Hle.
    destruct (decide (w < st_swaps (sweep p balls w))) as [Hlt|Hge]; [|lia].
    apply sweep_found_iff in Hlt. congruence. }
  split; [by apply sweep_no_swap|].
  intros i Hi. unfold sweep in Hs.
  apply (sweep_from_no_swap_settled p (length balls - 1) _ Hs). lia.
Qed.

(** A call that stopped before its last allowed sweep stopped on a sweep
    without collision, and so returns a settled chain. *)
Lemma resolve_loop_settled p k balls s w :
  res_sweeps (resolve_loop p k balls s w) < s + k ->
  settled p (res_balls (resolve_loop p k balls s w)).
Proof.
  revert balls s w. induction k as [|k IH]; intros balls s w Hlt; simpl in *.
  - lia.
  - destruct (collision_found (sweep p balls w)) eqn:Hf.
    + apply IH. lia.
    + destruct (sweep_not_found_settled p balls w Hf) as [-> Hset]. done.
Qed.

Lemma resolve_loop_on_settled p k balls s w :
  settled p balls ->
  resolve_loop p (S k) balls s w
  = {| res_balls := balls; res_sweeps := S s; res_swaps := w |}.
Proof.
  intros Hset. rewrite resolve_loop_last; by rewrite (sweep_skip p balls w Hset).
Qed.

(** The contact test reads angles and pivots only. *)
Lemma in_contact_frame p l1 r1 l2 r2 :
  frame_of l1 = frame_of l2 -> frame_of r1 = frame_of r2 ->
  in_contact p l1 r1 = in_contact p l2 r2.
Proof.
  unfold frame_of. intros [= _ Hal _ Hpl] [= _ Har _ Hpr].
  unfold in_contact, get_position. by rewrite Hal, Hpl, Har, Hpr.
Qed.

Lemma touching_frame p balls balls' :
  map frame_of balls' = map frame_of balls ->
  touching p balls -> touching p balls'.
Proof.
  intros Hf Ht j bl' br' Hl' Hr'.
  assert (Hlk : forall i b', balls' !! i = Some b' ->
            exists b, balls !! i = Some b /\ frame_of b' = frame_of b).
  { intros i b' Hi.
    assert (Hm : map frame_of balls !! i = Some (frame_of b')).
    { rewrite <- Hf. rewrite list_lookup_fmap, Hi. done. }
    rewrite list_lookup_fmap in Hm.
    destruct (balls !! i) as [b|]; [|done].
    exists b. split; [done|]. simpl in Hm. congruence. }
  destruct (Hlk _ _ Hl') as (bl & Hl & Hfl).
  destruct (Hlk _ _ Hr') as (br & Hr & Hfr).
  rewrite (in_contact_frame p bl' br' bl br Hfl Hfr). by eapply Ht.
Qed.

(** What [update] keeps: the mass and the pivot. *)
Lemma update_keeps p dt b b' :
  update p dt b = Some b' -> mass b' = mass b /\ pivot b' = pivot b.
Proof.
  unfold update. destruct (is_zero (rod_length p)); [done|].
  by intros [= <-].
Qed.

Lemma update_None p dt b :
  update p dt b = None <-> is_zero (rod_length p) = true.
Proof. unfold update. by destruct (is_zero (rod_length p)). Qed.

Lemma update_all_keeps p dt balls balls' :
  update_all p dt balls = Some balls' ->
  map mass balls' = map mass balls /\ map pivot balls' = map pivot balls.
Proof.
  unfold update_all. rewrite mapM_Some.
  induction 1 as [|b b' l l' Hb _ [IHm IHp]]; [done|].
  apply update_keeps in Hb as [Hm Hp]. simpl. by rewrite Hm, Hp, IHm, IHp.
Qed.

Lemma frame_mass_pivot balls balls' :
  map frame_of balls' = map frame_of balls ->
  map mass balls' = map mass balls /\ map pivot balls' = map pivot balls.
Proof.
  intros Hf. split.
  - apply (f_equal (map (fun x => x.1.1.1))) in Hf. by rewrite !map_map in Hf.
  - apply (f_equal (map snd)) in Hf. by rewrite !map_map in Hf.
Qed.

Lemma run_call_keeps p c balls balls' :
  run_call p c balls = Some balls' ->
  map mass balls' = map mass balls /\ map pivot balls' = map pivot balls.
Proof.
  destruct c as [i dt|dt|]; simpl.
  - destruct (balls !! i) as [b|] eqn:Hi; [|done]. simpl.
    destruct (update p dt b) as [b1|] eqn:Hu; [|done]. simpl.
    intros [= <-]. apply update_keeps in Hu as [Hm Hp].
    rewrite !list_fmap_insert, Hm, Hp.
    split; apply list_insert_id; by rewrite list_lookup_fmap, Hi.
  - apply update_all_keeps.
  - intros [= <-]. apply frame_mass_pivot, resolve_collisions_frame.
Qed.

Lemma run_calls_keeps p cs balls balls' :
  run_calls p cs balls = Some balls' ->
  map mass balls' = map mass balls /\ map pivot balls' = map pivot balls.
Proof.
  revert balls. induction cs as [|c cs IH]; intros balls; simpl.
  - by intros [= <-].
  - destruct (run_call p c balls) as [b1|] eqn:Hc; [|done]. simpl.
    intros Hr. apply run_call_keeps in Hc as [Hm Hp].
    destruct (IH _ Hr) as [Hm' Hp']. split; congruence.
Qed.

End ResolveFurther.

Section RealFurther.
Local Open Scope R_scope.
Implicit Types (p : SimulationParams R) (b : Ball R) (balls : list (Ball R)).

(** ** A velocity that runs down a chain at rest *)

Lemma velocity_lookup balls (i : nat) (v : R) :
  map angular_velocity balls !! i = Some v ->
  exists b, balls !! i = Some b /\ angular_velocity b = v.
Proof.
  rewrite list_lookup_fmap. destruct (balls !! i) as [b|]; [|done].
  intros [= <-]. by exists b.
Qed.

(** Entered at index [j] with the odd velocity [w] at index [j] and [v0]
    everywhere else, the sweep carries [w] to index [0] in [j] swaps. *)
Lemma sweep_from_cascade p (v0 w : R) :
  rod_length p * w - rod_length p * v0 < 0 ->
  forall (j k : nat) (st : sweep_state R),
    touching p (st_balls st) ->
    map angular_velocity (st_balls st) = replicate j v0 ++ w :: replicate k v0 ->
    map angular_velocity (st_balls (sweep_from p j st))
      = w :: replicate (j + k) v0
    /\ st_swaps (sweep_from p j st) = (st_swaps st + j)%nat
    /\ ((0 < j)%nat -> collision_found (sweep_from p j st) = true)
    /\ (collision_found st = true -> collision_found (sweep_from p j st) = true).
Proof.
  intros Hclose. induction j as [|j IH]; intros k st Ht Hvel.
  - simpl. split_and!; [done|lia|lia|done].
  - assert (Hr : map angular_velocity (st_balls st) !! S j = Some w).
    { rewrite Hvel, lookup_app_r; rewrite length_replicate; [|lia].
      by rewrite Nat.sub_diag. }
    assert (Hl : map angular_velocity (st_balls st) !! j = Some v0).
    { rewrite Hvel, lookup_app_l by (rewrite length_replicate; lia).
      apply lookup_replicate_2. lia. }
    apply velocity_lookup in Hr as (br & Hr & Hwr).
    apply velocity_lookup in Hl as (bl & Hl & Hwl).
    assert (Hc : in_contact p bl br = true) by (by eapply Ht).
    assert (Hv : closing p bl br = true).
    { apply R_lt_true. rewrite Hwr, Hwl. simpl. lra. }
    simpl sweep_from.
    rewrite (visit_pair_swap p (S j) st bl br Hr) by
      (simpl; rewrite ?Nat.sub_0_r; done).
    destruct (swap_velocities_split _ _ _ _ Hl Hr) as (l1 & l2 & Hsplit & Hlen & Hswap).
    assert (Hparts : map angular_velocity l1 = replicate j v0
                     /\ map angular_velocity l2 = replicate k v0).
    { rewrite Hsplit, map_app in Hvel.
      change (map angular_velocity (bl :: br :: l2))
        with (angular_velocity bl :: angular_velocity br
              :: map angular_velocity l2) in Hvel.
      rewrite Hwl, Hwr, replicate_S_end, <- app_assoc in Hvel.
      apply app_inj_1 in Hvel as [H1 H2];
        [|by rewrite length_map, length_replicate].
      split; [done|]. by injection H2. }
    destruct Hparts as [Hv1 Hv2].
    set (st1 := {| st_balls := swap_velocities (S j) bl br (st_balls st);
                   collision_found := true;
                   st_swaps := S (st_swaps st) |}).
    assert (Ht1 : touching p (st_balls st1)).
    { eapply touching_frame; [|exact Ht]. by apply swap_velocities_frame. }
    assert (Hvel1 : map angular_velocity (st_balls st1)
                    = replicate j v0 ++ w :: replicate (S k) v0).
    { unfold st1. cbn [st_balls]. rewrite Hswap, map_app.
      change (map angular_velocity (?a :: ?c :: l2))
        with (angular_velocity a :: angular_velocity c
              :: map angular_velocity l2).
      cbn [angular_velocity set_angular_velocity].
      by rewrite Hv1, Hv2, Hwr, Hwl. }
    destruct (IH (S k) st1 Ht1 Hvel1) as (Hres & Hsw & _ & Hfound).
    split_and!.
    + rewrite Hres. f_equal. f_equal. lia.
    + rewrite Hsw. unfold st1. cbn [st_swaps]. lia.
    + intros _. by apply Hfound.
    + intros _. by apply Hfound.
Qed.

(** A chain whose velocities are [w] on the left and [v0] elsewhere, with
    [w] not above [v0] in the approximate velocities, is settled. *)
Lemma settled_after_cascade p balls (v0 w : R) (m : nat) :
  rod_length p * w - rod_length p * v0 < 0 ->
  map angular_velocity balls = w :: replicate m v0 ->
  settled p balls.
Proof.
  intros Hclose Hvel i Hi. unfold qualifies.
  destruct (balls !! i) as [br|] eqn:Hr; [|done].
  destruct (balls !! (i - 1)%nat) as [bl|] eqn:Hl; [|done].
  assert (Hwr : angular_velocity br = v0).
  { assert (Hm : map angular_velocity balls !! i = Some (angular_velocity br))
      by (by rewrite list_lookup_fmap, Hr).
    rewrite Hvel in Hm. destruct i as [|i]; [lia|]. simpl in Hm.
    apply lookup_replicate in Hm as [Hm _]. done. }
  assert (Hwl : angular_velocity bl = w \/ angular_velocity bl = v0).
  { assert (Hm : map angular_velocity balls !! (i - 1)%nat
                 = Some (angular_velocity bl))
      by (by rewrite list_lookup_fmap, Hl).
    rewrite Hvel in Hm. destruct (i - 1)%nat as [|i']; simpl in Hm.
    - left. congruence.
    - right. apply lookup_replicate in Hm as [Hm _]. done. }
  apply andb_false_iff. right. apply R_lt_false.
  rewrite Hwr. destruct Hwl as [->| ->]; simpl; lra.
Qed.

(** ** Sums along a chain *)

Lemma foldr_Rplus_add {A} (f g : A -> R) (l : list A) :
  foldr Rplus 0 (map (fun a => f a + g a) l)
  = foldr Rplus 0 (map f l) + foldr Rplus 0 (map g l).
Proof. induction l as [|a l IH]; simpl; [lra|]. rewrite IH. lra. Qed.

Lemma chain_energy_split p balls :
  chain_energy p balls
  = foldr Rplus 0 (map (kinetic_energy p) balls)
    + foldr Rplus 0 (map (potential_energy p) balls).
Proof. unfold chain_energy. apply (foldr_Rplus_add _ _ balls). Qed.

(** With one mass [m] for all balls, the kinetic energies are a function of
    the velocities. *)
Lemma kinetic_energy_equal_masses p balls (m : R) :
  Forall (fun b => mass b = m) balls ->
  map (kinetic_energy p) balls
  = map (fun w => 1 / 2 * m * (rod_length p * w) ^ 2)
      (map angular_velocity balls).
Proof.
  induction 1 as [|b l Hb _ IH]; [done|].
  simpl. rewrite IH. unfold kinetic_energy. by rewrite Hb.
Qed.

Lemma potential_energy_frame p balls balls' :
  map frame_of balls' = map frame_of balls ->
  map (potential_energy p) balls' = map (potential_energy p) balls.
Proof.
  intros Hf.
  apply (f_equal (map (fun fr : R * R * R * (R * R) =>
           fr.1.1.1 * gravity p * (rod_length p * (1 - cos fr.1.1.2))))) in Hf.
  by rewrite !map_map in Hf.
Qed.

Lemma masses_frame balls balls' (m : R) :
  map frame_of balls' = map frame_of balls ->
  Forall (fun b => mass b = m) balls ->
  Forall (fun b => mass b = m) balls'.
Proof.
  intros Hf%frame_mass_pivot. destruct Hf as [Hm _].
  rewrite !Forall_lookup. intros Hall i b' Hi.
  assert (Hlk : map mass balls !! i = Some (mass b')).
  { rewrite <- Hm. by rewrite list_lookup_fmap, Hi. }
  rewrite list_lookup_fmap in Hlk.
  destruct (balls !! i) as [b|] eqn:Hb; [|done].
  simpl in Hlk. injection Hlk as <-. by eapply Hall.
Qed.

(** ** The layout of a new chain *)

Lemma initialize_simulation_pivot p (i : nat) b :
  initialize_simulation p !! i = Some b ->
  pivot b = (400 + (2 * IZR (Z.of_nat i) - IZR (num_balls p - 1)) * ball_radius p,
             100).
Proof.
  intros [_ ->]%initialize_simulation_lookup. simpl. f_equal.
  change (WIDTH / 2)%Z with 400%Z. field.
Qed.

Lemma initialize_simulation_velocity p (i : nat) b :
  initialize_simulation p !! i = Some b -> angular_velocity b = 0.
Proof. by intros [_ ->]%initialize_simulation_lookup. Qed.

(** Balls that all turn at the same rate never close on one another. *)
Lemma settled_equal_velocities p balls (v : R) :
  (forall i b, balls !! i = Some b -> angular_velocity b = v) ->
  settled p balls.
Proof.
  intros Hv i Hi. unfold qualifies.
  destruct (balls !! i) as [br|] eqn:Hr; [|done].
  destruct (balls !! (i - 1)%nat) as [bl|] eqn:Hl; [|done].
  apply andb_false_iff. right. apply R_lt_false.
  rewrite (Hv _ _ Hr), (Hv _ _ Hl). simpl. lra.
Qed.

Lemma R_is_zero_inv (x : R) : is_zero x = false -> x <> 0.
Proof. unfold is_zero. simpl. by destruct (Req_dec_T x 0). Qed.

Lemma pivot_lookup balls balls' (i : nat) b' :
  map pivot balls' = map pivot balls ->
  balls' !! i = Some b' ->
  exists b, balls !! i = Some b /\ pivot b' = pivot b.
Proof.
  intros Hp Hi.
  assert (Hm : map pivot balls !! i = Some (pivot b')).
  { rewrite <- Hp. by rewrite list_lookup_fmap, Hi. }
  rewrite list_lookup_fmap in Hm.
  destruct (balls !! i) as [b|]; [|done].
  exists b. split; [done|]. simpl in Hm. congruence.
Qed.

Lemma struck_chain_touching : touching default_params struck_chain.
Proof.
  intros j bl br Hl Hr.
  do 4 (destruct j as [|j];
        [injection Hl as <-; injection Hr as <-; apply R_lt_true;
         rewrite hanging_pair_gap; unfold tolerance; simpl; lra|]).
  destruct j; done.
Qed.

End RealFurther.

Section GenericFurther.
Context {num : Type} `{PyNum num}.
Implicit Types (p : SimulationParams num) (balls : list (Ball num)).

Lemma update_all_is_Some p dt balls :
  is_zero (rod_length p) = false -> is_Some (update_all p dt balls).
Proof.
  intros HL. unfold update_all. apply mapM_is_Some, Forall_forall.
  intros b _. simpl. unfold update. by rewrite HL.
Qed.


End GenericFurther.

(** * The slider *)

Section SliderGeneric.
Context {num : Type} `{PyNum num}.
Variable round : num -> Z.
Variable collidepoint : num -> Z -> Z -> Z -> Z * Z -> bool.
Implicit Types (s : Slider.t num) (e : Slider.event).

Lemma set_active_same s : Slider.set_active s (Slider.active s) = s.
Proof. by destruct s. Qed.

(** What an event can change: [value] and [active], nothing else. *)
Lemma handle_event_frame s e s' r :
  Slider.handle_event round collidepoint s e = Some (s', r) ->
  Slider.rect s' = Slider.rect s
  /\ Slider.min_val s' = Slider.min_val s
  /\ Slider.max_val s' = Slider.max_val s
  /\ Slider.step s' = Slider.step s
  /\ Slider.handle_radius s' = Slider.handle_radius s.
Proof.
  destruct e as [[|[| |]|] pos|[|[| |]|] pos|pos|]; simpl;
    try (by intros [= <- <-]).
  - destruct (Slider.handle_x s) as [hx|]; [|done]. simpl.
    destruct (collidepoint _ _ _ _ _); by intros [= <- <-].
  - destruct (Slider.active s); [|by intros [= <- <-]].
    destruct (Slider.dragged_value round s pos.1) as [v|]; [|done].
    by intros [= <- <-].
Qed.

End SliderGeneric.

Section SliderReal.
Local Open Scope R_scope.
Variable round : R -> Z.
Variable collidepoint : R -> Z -> Z -> Z -> Z * Z -> bool.
Implicit Types (s : Slider.t R) (e : Slider.event).

Lemma R_py_min (a b : R) : Slider.py_min a b = Rmin a b.
Proof.
  unfold Slider.py_min, py_lt, Rmin. simpl.
  destruct (Rlt_dec b a), (Rle_dec a b); lra.
Qed.

Lemma R_py_max (a b : R) : Slider.py_max a b = Rmax a b.
Proof.
  unfold Slider.py_max, py_lt, Rmax. simpl.
  destruct (Rlt_dec a b), (Rle_dec a b); lra.
Qed.

Lemma R_clamp (lo hi v : R) :
  lo <= hi ->
  lo <= Slider.py_max lo (Slider.py_min hi v) <= hi.
Proof.
  intros Hle. rewrite R_py_max, R_py_min.
  unfold Rmax, Rmin. repeat destruct (Rle_dec _ _); lra.
Qed.

Lemma R_clamp_inside (lo hi v : R) :
  lo <= v <= hi -> Slider.py_max lo (Slider.py_min hi v) = v.
Proof.
  intros Hv. rewrite R_py_max, R_py_min.
  unfold Rmax, Rmin. repeat destruct (Rle_dec _ _); lra.
Qed.

Lemma dragged_value_in_range s (pos_x : Z) (v : R) :
  Slider.min_val s <= Slider.max_val s ->
  Slider.dragged_value round s pos_x = Some v ->
  Slider.min_val s <= v <= Slider.max_val s.
Proof.
  intros Hle. unfold Slider.dragged_value.
  destruct (decide (Slider.width (Slider.rect s) = 0%Z)); [done|].
  intros [= <-]. by apply R_clamp.
Qed.

Lemma handle_event_in_range s e s' r :
  Slider.min_val s <= Slider.max_val s ->
  Slider.min_val s <= Slider.value s <= Slider.max_val s ->
  Slider.handle_event round collidepoint s e = Some (s', r) ->
  Slider.min_val s' <= Slider.value s' <= Slider.max_val s'.
Proof.
  intros Hle Hin He.
  destruct (handle_event_frame round collidepoint s e s' r He)
    as (_ & -> & -> & _).
  revert He.
  destruct e as [[|[| |]|] pos|[|[| |]|] pos|pos|]; simpl;
    try (by intros [= <- <-]).
  - destruct (Slider.handle_x s) as [hx|]; [|done]. simpl.
    destruct (collidepoint _ _ _ _ _); by intros [= <- <-].
  - destruct (Slider.active s); [|by intros [= <- <-]].
    destruct (Slider.dragged_value round s pos.1) as [v|] eqn:Hv; [|done].
    intros [= <- <-]. simpl. by eapply dragged_value_in_range.
Qed.

End SliderReal.

(** * Further properties, stated *)

Section FurtherProperties.
Local Open Scope R_scope.

(** X1.  Every rod that [draw] draws runs from the pivot to a point at
    distance [rod_length] from it: [get_position] keeps the ball on the
    circle of radius [rod_length] about its pivot, whatever the angle. *)
Theorem draw_rods_on_circle
    (p : SimulationParams R) (balls : list (Ball R)) (i : nat)
    (start stop : R * R) :
  draw_rods p balls !! i = Some (start, stop) ->
  (fst stop - fst start) ^ 2 + (snd stop - snd start) ^ 2 = rod_length p ^ 2.
Proof.
  unfold draw_rods. rewrite list_lookup_fmap.
  destruct (balls !! i) as [b|]; [|done]. intros [= <- <-].
  pose proof (sin2_cos2 (angle b)) as Hsc. unfold Rsqr in Hsc.
  simpl. nra.
Qed.

Lemma draw_rods_on_circle_witness :
  (fst (get_position default_params (raised_ball (PI / 4))) - 400) ^ 2
  + (snd (get_position default_params (raised_ball (PI / 4))) - 100) ^ 2
  = 200 ^ 2.
Proof.
  exact (draw_rods_on_circle default_params [raised_ball (PI / 4)] 0
           (400, 100) (get_position default_params (raised_ball (PI / 4)))
           eq_refl).
Defined.

(** X2.  A ball at rest where the sine of its angle is zero (hanging straight
    down, for one) stays there: any number of [update] calls, with any step
    and any damping, leaves its angle unchanged and its angular velocity
    zero, provided the rod length is not zero. *)
Theorem rest_is_kept
    (p : SimulationParams R) (dt : R) (n : nat) (b : Ball R) :
  rod_length p <> 0 ->
  sin (angle b) = 0 ->
  angular_velocity b = 0 ->
  exists b',
    update_n p dt n b = Some b'
    /\ angle b' = angle b
    /\ angular_velocity b' = 0
    /\ mass b' = mass b
    /\ pivot b' = pivot b.
Proof.
  intros HL. revert b. induction n as [|n IH]; intros b Hs Hw.
  - exists b. done.
  - simpl. unfold update at 1. rewrite R_is_zero_false by done. cbv zeta.
    simpl. rewrite Hs, Hw.
    match goal with
    | |- context [update_n p dt n ?b1] =>
        destruct (IH b1) as (b' & Hu & Ha & Hw' & Hm & Hp)
    end.
    + simpl. replace (angle b + _) with (angle b); [done|].
      unfold Rdiv. ring.
    + simpl. unfold Rdiv. ring.
    + exists b'. split; [done|]. simpl in Ha, Hm, Hp.
      split_and!; [|done..]. rewrite Ha. unfold Rdiv. ring.
Qed.

(** [test_energy_conservation_at_equilibrium]: ten frames. *)
Lemma rest_is_kept_witness :
  exists b',
    update_n default_params (1 / 60) 10 (hanging_ball 1 400 0) = Some b'
    /\ angle b' = 0
    /\ angular_velocity b' = 0.
Proof.
  destruct (rest_is_kept default_params (1 / 60) 10 (hanging_ball 1 400 0))
    as (b' & Hu & Ha & Hw & _); [simpl; lra|apply sin_0|reflexivity|].
  exists b'. done.
Defined.

(** X3.  With a damping factor that is not zero, one [update] can be undone:
    the state before the step is determined by the state after it, the angle
    being [angle' - w' * dt] and the velocity
    [w' / damping + gravity / rod_length * sin(angle) * dt]. *)
Theorem update_inverse
    (p : SimulationParams R) (dt : R) (b b' : Ball R) :
  damping p <> 0 ->
  update p dt b = Some b' ->
  angle b = angle b' - angular_velocity b' * dt
  /\ angular_velocity b
     = angular_velocity b' / damping p
       + gravity p / rod_length p
         * sin (angle b' - angular_velocity b' * dt) * dt
  /\ mass b = mass b'
  /\ pivot b = pivot b'.
Proof.
  intros Hd. unfold update.
  destruct (is_zero (rod_length p)) eqn:HL; [done|].
  apply R_is_zero_inv in HL. intros [= <-]. simpl.
  assert (Ha : angle b
               + (angular_velocity b
                  + - gravity p * sin (angle b) / rod_length p * dt)
                 * damping p * dt
               - (angular_velocity b
                  + - gravity p * sin (angle b) / rod_length p * dt)
                 * damping p * dt = angle b) by ring.
  rewrite Ha. split_and!; [ring| |done..]. by field.
Qed.

(** One frame of the damped configuration. *)
Lemma update_inverse_witness :
  exists b',
    update damped_params (1 / 60) (hanging_ball 1 400 1) = Some b'
    /\ angle (hanging_ball 1 400 1)
       = angle b' - angular_velocity b' * (1 / 60).
Proof.
  destruct (update damped_params (1 / 60) (hanging_ball 1 400 1))
    as [b'|] eqn:Hu.
  - exists b'. split; [done|].
    exact (proj1 (update_inverse damped_params (1 / 60)
                    (hanging_ball 1 400 1) b' ltac:(simpl; lra) Hu)).
  - apply update_None in Hu.
    rewrite R_is_zero_false in Hu by (simpl; lra). done.
Defined.

(** The first call on the two balls of [test_velocity_swap_on_collision]
    runs two sweeps. *)
Lemma closing_pair_run :
  resolve_run default_params
    [hanging_ball 1 100 0; hanging_ball 1 140 (-0.1)]
  = {| res_balls := [hanging_ball 1 100 (-0.1); hanging_ball 1 140 0];
       res_sweeps := 2;
       res_swaps := 1 |}.
Proof.
  apply (resolve_run_pair_swap default_params (hanging_ball 1 100 0)
           (hanging_ball 1 140 (-0.1))).
  - apply R_lt_true. rewrite hanging_pair_gap. unfold tolerance. simpl. lra.
  - apply R_lt_true. simpl. lra.
  - apply R_lt_false. simpl. lra.
Qed.

(** X4.  A call of [resolve_collisions] that stops before its tenth sweep
    returns a chain in which no adjacent pair is both in contact and
    closing: the sweep that ended the call found every pair in order. *)
Theorem resolve_early_stop_settled {num : Type} `{PyNum num}
    (p : SimulationParams num) (balls : list (Ball num)) :
  (res_sweeps (resolve_run p balls) < max_iter)%nat ->
  settled p (resolve_collisions p balls).
Proof.
  intros Hlt. unfold resolve_collisions, resolve_run in *.
  apply resolve_loop_settled. lia.
Qed.

Lemma resolve_early_stop_settled_witness :
  settled default_params
    (resolve_collisions default_params
       [hanging_ball 1 100 0; hanging_ball 1 140 (-0.1)]).
Proof.
  apply (resolve_early_stop_settled default_params).
  rewrite closing_pair_run. unfold max_iter. simpl. lia.
Defined.

(** X5.  After a call that stopped before its tenth sweep, a second call
    changes nothing: it runs one sweep, swaps nothing and returns the same
    chain. *)
Theorem resolve_twice {num : Type} `{PyNum num}
    (p : SimulationParams num) (balls : list (Ball num)) :
  (res_sweeps (resolve_run p balls) < max_iter)%nat ->
  resolve_run p (resolve_collisions p balls)
  = {| res_balls := resolve_collisions p balls;
       res_sweeps := 1;
       res_swaps := 0 |}.
Proof.
  intros Hlt. unfold resolve_run at 1. unfold max_iter.
  apply resolve_loop_on_settled.
  unfold resolve_collisions, resolve_run in *.
  apply resolve_loop_settled. lia.
Qed.

Lemma resolve_twice_witness :
  resolve_run default_params
    (resolve_collisions default_params
       [hanging_ball 1 100 0; hanging_ball 1 140 (-0.1)])
  = {| res_balls := resolve_collisions default_params
                      [hanging_ball 1 100 0; hanging_ball 1 140 (-0.1)];
       res_sweeps := 1;
       res_swaps := 0 |}.
Proof.
  apply (resolve_twice default_params).
  rewrite closing_pair_run. unfold max_iter. simpl. lia.
Defined.

(** X6.  Newton's cradle.  In a chain whose neighbours all pass the contact
    test, where every ball turns at the rate [v0] except the rightmost, which
    closes on its neighbour at the rate [w], one call of [resolve_collisions]
    hands [w] from ball to ball down to the leftmost and leaves every other
    ball at [v0]: one swap per pair, all in the first sweep, and a second
    sweep that finds nothing to do. *)
Theorem resolve_cascade
    (p : SimulationParams R) (balls : list (Ball R)) (m : nat) (v0 w : R) :
  touching p balls ->
  map angular_velocity balls = replicate m v0 ++ [w] ->
  rod_length p * w - rod_length p * v0 < 0 ->
  map angular_velocity (resolve_collisions p balls) = w :: replicate m v0
  /\ res_swaps (resolve_run p balls) = m
  /\ res_sweeps (resolve_run p balls) = (if decide (m = 0%nat) then 1 else 2)%nat.
Proof.
  intros Ht Hvel Hclose.
  assert (Hlen : length balls = S m).
  { rewrite <- (length_map angular_velocity), Hvel, length_app,
      length_replicate. simpl. lia. }
  destruct (sweep_from_cascade p v0 w Hclose m 0
              {| st_balls := balls; collision_found := false; st_swaps := 0 |}
              Ht Hvel) as (Hres & Hsw & Hfound & _).
  assert (Hsweep : sweep p balls 0
                   = sweep_from p m
                       {| st_balls := balls; collision_found := false;
                          st_swaps := 0 |}).
  { unfold sweep. rewrite Hlen. simpl. by rewrite Nat.sub_0_r. }
  rewrite Nat.add_0_r in Hres. simpl in Hsw.
  unfold resolve_collisions, resolve_run, max_iter.
  destruct (decide (m = 0%nat)) as [->|Hm].
  - rewrite resolve_loop_last by (rewrite Hsweep; done).
    rewrite Hsweep. simpl. by rewrite Hvel.
  - rewrite resolve_loop_again by (rewrite Hsweep; apply Hfound; lia).
    rewrite Hsweep, resolve_loop_on_settled.
    + simpl. rewrite Hres, Hsw. done.
    + by apply (settled_after_cascade p _ v0 w m).
Qed.

(** [test_multiple_ball_cascade]: the velocity [-0.5] of the rightmost of
    five balls arrives at the leftmost. *)
Lemma resolve_cascade_witness :
  map angular_velocity (resolve_collisions default_params struck_chain)
  = [-0.5; 0; 0; 0; 0].
Proof.
  refine (proj1 (resolve_cascade default_params struck_chain 4 0 (-0.5)
                   struck_chain_touching eq_refl _)).
  simpl. lra.
Defined.

(** X7.  When all balls of the chain have the same mass,
    [resolve_collisions] conserves the energy of the chain (kinetic plus
    potential, summed over the balls). *)
Theorem resolve_conserves_energy
    (p : SimulationParams R) (balls : list (Ball R)) (m : R) :
  Forall (fun b => mass b = m) balls ->
  chain_energy p (resolve_collisions p balls) = chain_energy p balls.
Proof.
  intros Hm.
  pose proof (resolve_collisions_frame p balls) as Hf.
  pose proof (resolve_collisions_velocities_perm p balls) as Hp.
  rewrite !chain_energy_split. f_equal.
  - rewrite (kinetic_energy_equal_masses p _ m) by (by eapply masses_frame).
    rewrite (kinetic_energy_equal_masses p balls m) by done.
    apply foldr_Rplus_perm. by apply Permutation_map.
  - by rewrite (potential_energy_frame p balls _ Hf).
Qed.

Lemma resolve_conserves_energy_witness :
  chain_energy default_params (resolve_collisions default_params struck_chain)
  = chain_energy default_params struck_chain.
Proof.
  apply (resolve_conserves_energy default_params struck_chain 1).
  repeat constructor.
Defined.

(** X8.  No sequence of [update] and [resolve_collisions] calls that runs
    without exception changes the number of balls, a pivot or a mass. *)
Theorem calls_keep_pivots_and_masses {num : Type} `{PyNum num}
    (p : SimulationParams num) (cs : list (call num))
    (balls balls' : list (Ball num)) :
  run_calls p cs balls = Some balls' ->
  length balls' = length balls
  /\ map pivot balls' = map pivot balls
  /\ map mass balls' = map mass balls.
Proof.
  intros [Hm Hp]%run_calls_keeps. split_and!; [|done..].
  by rewrite <- (length_map mass balls'), Hm, length_map.
Qed.

(** A frame of the main loop on the struck chain. *)
Lemma calls_keep_pivots_and_masses_witness :
  exists balls',
    step default_params struck_chain = Some balls'
    /\ map pivot balls' = map pivot struck_chain.
Proof.
  assert (Hs : is_Some (step default_params struck_chain)).
  { unfold step. cbn [run_calls run_call].
    destruct (update_all_is_Some default_params (time_step default_params)
                struck_chain) as [balls1 Hu];
      [apply R_is_zero_false; simpl; lra|].
    rewrite Hu. simpl. by eexists. }
  destruct Hs as [balls' Hstep]. exists balls'. split; [done|].
  exact (proj1 (proj2 (calls_keep_pivots_and_masses default_params _ _ _
                         Hstep))).
Defined.


(** X10.  A chain of at most one ball has no pair to visit:
    [resolve_collisions] runs one sweep, swaps nothing and returns it as it
    is. *)
Theorem resolve_short_chain {num : Type} `{PyNum num}
    (p : SimulationParams num) (balls : list (Ball num)) :
  (length balls <= 1)%nat ->
  resolve_run p balls
  = {| res_balls := balls; res_sweeps := 1; res_swaps := 0 |}.
Proof. intros Hlen. apply resolve_run_skip. intros i Hi. lia. Qed.

Lemma resolve_short_chain_witness :
  resolve_run default_params [raised_ball (PI / 4)]
  = {| res_balls := [raised_ball (PI / 4)]; res_sweeps := 1; res_swaps := 0 |}.
Proof. apply (resolve_short_chain default_params). simpl. lia. Defined.

(** X11.  For a chain built by [initialize_simulation] with at least one
    ball and a radius that is not negative, and after any calls on it, the
    support bar that [draw] computes is the rectangle of height [10] at
    [y = 90] that starts [20] left of the first pivot and ends [20] right of
    the last: it is centred on [x = 400], and every pivot lies on it, at
    least [20] from either end. *)
Theorem support_bar_of_built_chain
    (p : SimulationParams R) (cs : list (call R)) (balls : list (Ball R)) :
  (1 <= num_balls p)%Z ->
  0 <= ball_radius p ->
  run_calls p cs (initialize_simulation p) = Some balls ->
  let left := 380 - IZR (num_balls p - 1) * ball_radius p in
  let width := 2 * IZR (num_balls p - 1) * ball_radius p + 40 in
  support_rect balls = Some (left, 90, width, 10)
  /\ (forall i b, balls !! i = Some b ->
        left + 20 <= fst (pivot b) <= left + width - 20
        /\ snd (pivot b) = 100).
Proof.
  intros Hn Hr [Hm Hp]%run_calls_keeps left width.
  assert (Hlen : length balls = Z.to_nat (num_balls p)).
  { rewrite <- (length_map pivot balls), Hp, length_map.
    apply initialize_simulation_length. }
  assert (Hpiv : forall i b, balls !! i = Some b ->
            pivot b = (400 + (2 * IZR (Z.of_nat i) - IZR (num_balls p - 1))
                             * ball_radius p, 100)
            /\ (i < Z.to_nat (num_balls p))%nat).
  { intros i b Hi. destruct (pivot_lookup _ _ _ _ Hp Hi) as (b0 & Hi0 & ->).
    split; [by apply initialize_simulation_pivot|].
    apply lookup_lt_Some in Hi. lia. }
  split.
  - unfold support_rect. rewrite head_lookup, last_lookup, Hlen.
    destruct (balls !! 0%nat) as [b0|] eqn:H0.
    2:{ apply lookup_ge_None in H0. lia. }
    destruct (balls !! pred (Z.to_nat (num_balls p))) as [b1|] eqn:H1.
    2:{ apply lookup_ge_None in H1. lia. }
    destruct (Hpiv _ _ H0) as [-> _]. destruct (Hpiv _ _ H1) as [-> _].
    simpl. unfold left, width.
    replace (Z.of_nat (pred (Z.to_nat (num_balls p)))) with (num_balls p - 1)%Z
      by lia.
    change (Z.of_nat 0) with 0%Z.
    f_equal. repeat (apply pair_equal_spec; split); ring.
  - intros i b Hi. destruct (Hpiv _ _ Hi) as [-> Hlt]. simpl.
    assert (H0 : 0 <= IZR (Z.of_nat i)) by (apply IZR_le; lia).
    assert (H1 : IZR (Z.of_nat i) <= IZR (num_balls p - 1))
      by (apply IZR_le; lia).
    unfold left, width. split; [nra|done].
Qed.

(** The default chain, before any call: the bar is [Rect(300, 90, 200, 10)]. *)
Lemma support_bar_of_built_chain_witness :
  support_rect (initialize_simulation default_params)
  = Some (380 - 4 * 20, 90, 2 * 4 * 20 + 40, 10).
Proof.
  refine (proj1 (support_bar_of_built_chain default_params []
                   (initialize_simulation default_params) _ _ eq_refl)).
  - simpl. lia.
  - simpl. lra.
Defined.

Lemma default_chain_lookup (i : nat) :
  (i < 5)%nat -> is_Some (initialize_simulation default_params !! i).
Proof.
  intros Hi. apply lookup_lt_is_Some.
  by rewrite initialize_simulation_length.
Qed.

(** X12.  [initialize_simulation] centres the row of pivots on [x = 400],
    the middle of the window: the pivots at mirrored indices [i] and
    [num_balls - 1 - i] lie symmetrically about it, and every pivot is at
    height [100]. *)
Theorem pivots_mirrored
    (p : SimulationParams R) (i j : nat) (b b' : Ball R) :
  initialize_simulation p !! i = Some b ->
  initialize_simulation p !! j = Some b' ->
  (Z.of_nat i + Z.of_nat j = num_balls p - 1)%Z ->
  fst (pivot b) - 400 = 400 - fst (pivot b')
  /\ snd (pivot b) = 100.
Proof.
  intros Hi%initialize_simulation_pivot Hj%initialize_simulation_pivot Hij.
  rewrite Hi, Hj. simpl. split; [|done].
  rewrite <- Hij, plus_IZR. ring.
Qed.

(** The outer balls of the default chain. *)
Lemma pivots_mirrored_witness :
  exists b b',
    initialize_simulation default_params !! 0%nat = Some b
    /\ initialize_simulation default_params !! 4%nat = Some b'
    /\ fst (pivot b) - 400 = 400 - fst (pivot b').
Proof.
  destruct (default_chain_lookup 0 ltac:(lia)) as [b Hb].
  destruct (default_chain_lookup 4 ltac:(lia)) as [b' Hb'].
  exists b, b'. split_and!; [done..|].
  exact (proj1 (pivots_mirrored default_params 0 4 b b' Hb Hb' eq_refl)).
Defined.

(** X13.  A chain as [initialize_simulation] builds it is left alone by
    [resolve_collisions], whatever the parameters: all its balls are at rest,
    so no pair closes, and the call is one sweep without a swap. *)
Theorem resolve_fresh_chain (p : SimulationParams R) :
  resolve_run p (initialize_simulation p)
  = {| res_balls := initialize_simulation p; res_sweeps := 1; res_swaps := 0 |}.
Proof.
  unfold resolve_run, max_iter. apply resolve_loop_on_settled.
  apply (settled_equal_velocities p _ 0).
  intros i b Hi. by eapply initialize_simulation_velocity.
Qed.

(** X14.  In a chain as [initialize_simulation] builds it, two neighbours
    that both hang straight down pass the contact test (their gap is twice
    the radius, below the threshold), and the raised ball at the right end
    passes it with its neighbour exactly when
    [rod_length * sin(initial_angle)] is below the tolerance of one pixel. *)
Theorem fresh_chain_contact
    (p : SimulationParams R) (i : nat) (ball_left ball_right : Ball R) :
  initialize_simulation p !! i = Some ball_left ->
  initialize_simulation p !! S i = Some ball_right ->
  in_contact p ball_left ball_right = true
  <-> (Z.of_nat (S i) < num_balls p - 1)%Z
      \/ rod_length p * sin (initial_angle p) < 1.
Proof.
  intros Hl Hr.
  pose proof (initialize_simulation_pivot p _ _ Hl) as Hpl.
  pose proof (initialize_simulation_pivot p _ _ Hr) as Hpr.
  apply initialize_simulation_lookup in Hl as [Hil Hl].
  apply initialize_simulation_lookup in Hr as [Hir Hr].
  assert (Hal : angle ball_left = 0).
  { rewrite Hl. simpl. by rewrite decide_False by lia. }
  assert (Har : angle ball_right
                = if decide (Z.of_nat (S i) = (num_balls p - 1)%Z)
                  then initial_angle p else 0).
  { rewrite Hr. done. }
  unfold in_contact, get_position. rewrite Hpl, Hpr, Hal, Har.
  unfold tolerance. simpl fst. rewrite Nat2Z.inj_succ, succ_IZR.
  destruct (decide (Z.succ (Z.of_nat i) = (num_balls p - 1)%Z)) as [He|Hne].
  - split.
    + intros Hc. right. unfold py_lt in Hc. simpl in Hc.
      destruct (Rlt_dec _ _) as [Hlt|]; [|done].
      rewrite sin_0 in Hlt. lra.
    + intros [Hlt|Hlt]; [lia|]. apply R_lt_true. simpl. rewrite sin_0. lra.
  - split; [intros _; left; lia|]. intros _.
    apply R_lt_true. simpl. rewrite sin_0. lra.
Qed.

(** The two leftmost balls of the default chain touch. *)
Lemma fresh_chain_contact_witness :
  exists ball_left ball_right,
    initialize_simulation default_params !! 0%nat = Some ball_left
    /\ initialize_simulation default_params !! 1%nat = Some ball_right
    /\ in_contact default_params ball_left ball_right = true.
Proof.
  destruct (default_chain_lookup 0 ltac:(lia)) as [bl Hl].
  destruct (default_chain_lookup 1 ltac:(lia)) as [br Hr].
  exists bl, br. split_and!; [done..|].
  apply (fresh_chain_contact default_params 0 bl br Hl Hr).
  left. simpl. lia.
Defined.

(** X15.  A slider whose value lies between [min_val] and [max_val] (with
    [min_val <= max_val]) keeps it there through any sequence of events that
    raises no exception, whatever [round] and [collidepoint] compute; the
    bounds themselves never change. *)
Theorem slider_value_stays_in_range
    (round : R -> Z) (collidepoint : R -> Z -> Z -> Z -> Z * Z -> bool)
    (s s' : Slider.t R) (es : list Slider.event) :
  Slider.min_val s <= Slider.max_val s ->
  Slider.min_val s <= Slider.value s <= Slider.max_val s ->
  Slider.handle_events round collidepoint s es = Some s' ->
  Slider.min_val s' <= Slider.value s' <= Slider.max_val s'
  /\ Slider.min_val s' = Slider.min_val s
  /\ Slider.max_val s' = Slider.max_val s.
Proof.
  revert s. induction es as [|e es IH]; intros s Hle Hin; simpl.
  - by intros [= <-].
  - destruct (Slider.handle_event round collidepoint s e) as [[s1 r]|] eqn:He;
      [|done]. simpl. intros Hes.
    pose proof (handle_event_in_range round collidepoint s e s1 r Hle Hin He)
      as Hin1.
    destruct (handle_event_frame round collidepoint s e s1 r He)
      as (_ & Hlo & Hhi & _).
    destruct (IH s1) as (Hin' & Hlo' & Hhi'); [by rewrite Hlo, Hhi|done|done|].
    split; [done|split; congruence].
Qed.

(** Dragging the gravity slider ([1..100], step [0.1]) to the far right and
    then far to the left of its track. *)
Lemma slider_value_stays_in_range_witness :
  exists s',
    Slider.handle_events round_half_even no_hit
      (grabbed_slider 1 100 50 0.1)
      [Slider.MOUSEMOTION (900, 365)%Z; Slider.MOUSEMOTION (-20, 365)%Z]
    = Some s'
    /\ 1 <= Slider.value s' <= 100.
Proof.
  eexists. split; [reflexivity|].
  refine (proj1 (slider_value_stays_in_range round_half_even no_hit
                   (grabbed_slider 1 100 50 0.1) _
                   [Slider.MOUSEMOTION (900, 365)%Z;
                    Slider.MOUSEMOTION (-20, 365)%Z] _ _ eq_refl));
    simpl; lra.
Defined.

(** X16.  A slider that is not being dragged ignores everything but a press
    of the left button: any sequence of other events (pointer motion,
    releases, other buttons, other event types) raises nothing and leaves
    the slider exactly as it was. *)
Theorem idle_slider_unchanged {num : Type} `{PyNum num}
    (round : num -> Z) (collidepoint : num -> Z -> Z -> Z -> Z * Z -> bool)
    (s : Slider.t num) (es : list Slider.event) :
  Slider.active s = false ->
  Forall (fun e => forall pos, e <> Slider.MOUSEBUTTONDOWN 1 pos) es ->
  Slider.handle_events round collidepoint s es = Some s.
Proof.
  intros Ha. induction 1 as [|e es He _ IH]; [done|]. simpl.
  assert (Hev : Slider.handle_event round collidepoint s e = Some (s, false)).
  { destruct e as [[|[| |]|] pos|[|[| |]|] pos|pos|]; simpl; try done.
    - by destruct (He pos).
    - by rewrite <- Ha, set_active_same.
    - by rewrite Ha. }
  rewrite Hev. simpl. exact IH.
Qed.

Lemma idle_slider_unchanged_witness :
  Slider.handle_events round_half_even no_hit (fresh_slider 1 100 50 0.1)
    [Slider.MOUSEMOTION (200, 365)%Z; Slider.MOUSEBUTTONUP 1 (200, 365)%Z;
     Slider.MOUSEBUTTONDOWN 3 (200, 365)%Z; Slider.OTHER]
  = Some (fresh_slider 1 100 50 0.1).
Proof.
  apply (idle_slider_unchanged round_half_even no_hit); [reflexivity|].
  repeat constructor; intros pos; discriminate.
Defined.

(** X17.  The handle follows the pointer.  On a slider without quantisation
    ([step = 0]) with [min_val < max_val] and a track of positive width, a
    motion event while the slider is dragged, with the pointer over the
    track, sets the value for which the handle is drawn exactly under the
    pointer. *)
Theorem handle_follows_pointer
    (round : R -> Z) (collidepoint : R -> Z -> Z -> Z -> Z * Z -> bool)
    (s : Slider.t R) (pos : Z * Z) :
  Slider.step s = 0 ->
  Slider.min_val s < Slider.max_val s ->
  (0 < Slider.width (Slider.rect s))%Z ->
  Slider.active s = true ->
  (Slider.x (Slider.rect s) <= fst pos
   <= Slider.x (Slider.rect s) + Slider.width (Slider.rect s))%Z ->
  exists s',
    Slider.handle_event round collidepoint s (Slider.MOUSEMOTION pos)
      = Some (s', true)
    /\ Slider.handle_x s' = Some (IZR (fst pos)).
Proof.
  intros Hstep Hlt Hw Ha Hpos.
  set (rel := (fst pos - Slider.x (Slider.rect s))%Z).
  set (v := Slider.min_val s
            + (Slider.max_val s - Slider.min_val s) * IZR rel
              / IZR (Slider.width (Slider.rect s))).
  assert (HW : 0 < IZR (Slider.width (Slider.rect s))) by (by apply IZR_lt).
  assert (Hrel : 0 <= IZR rel <= IZR (Slider.width (Slider.rect s))).
  { split; apply IZR_le; unfold rel; lia. }
  assert (Hq : 0 <= IZR rel / IZR (Slider.width (Slider.rect s)) <= 1).
  { split.
    - apply Rle_mult_inv_pos; lra.
    - apply (Rmult_le_reg_r (IZR (Slider.width (Slider.rect s)))); [done|].
      unfold Rdiv. rewrite Rmult_assoc, Rinv_l by lra. lra. }
  assert (Hv : v = Slider.min_val s
                   + (Slider.max_val s - Slider.min_val s)
                     * (IZR rel / IZR (Slider.width (Slider.rect s)))).
  { unfold v. field. lra. }
  assert (Hdrag : Slider.dragged_value round s (fst pos) = Some v).
  { unfold Slider.dragged_value.
    rewrite decide_False by lia.
    replace (Z.max 0 (Z.min (fst pos - Slider.x (Slider.rect s))
                        (Slider.width (Slider.rect s)))) with rel
      by (unfold rel; lia).
    rewrite Hstep, R_is_zero_true. f_equal. apply R_clamp_inside.
    fold v. rewrite Hv. nra. }
  exists (Slider.set_value s v). split.
  - simpl. by rewrite Ha, Hdrag.
  - unfold Slider.handle_x.
    cbn [Slider.set_value Slider.max_val Slider.min_val Slider.value
         Slider.rect].
    rewrite R_is_zero_false by (simpl; lra). f_equal. simpl.
    unfold v, rel. rewrite minus_IZR. field. lra.
Qed.

(** The initial-angle slider of the module read without quantisation,
    dragged to the pixel [200]. *)
Lemma handle_follows_pointer_witness :
  exists s',
    Slider.handle_event round_half_even no_hit
      (grabbed_slider 0 (PI / 2) (PI / 4) 0) (Slider.MOUSEMOTION (200, 365)%Z)
    = Some (s', true)
    /\ Slider.handle_x s' = Some 200.
Proof.
  apply (handle_follows_pointer round_half_even no_hit
           (grabbed_slider 0 (PI / 2) (PI / 4) 0) (200, 365)%Z).
  - reflexivity.
  - simpl. pose proof PI_RGT_0. lra.
  - simpl. lia.
  - reflexivity.
  - simpl. lia.
Defined.

(** X18.  With a step that is not zero, a motion event on a dragged slider
    leaves a value that is a whole multiple of the step, unless that multiple
    fell outside the range and the value was clamped to [min_val] or
    [max_val]. *)
Theorem dragged_value_quantised
    (round : R -> Z) (collidepoint : R -> Z -> Z -> Z -> Z * Z -> bool)
    (s s' : Slider.t R) (pos : Z * Z) (r : bool) :
  Slider.step s <> 0 ->
  Slider.active s = true ->
  Slider.handle_event round collidepoint s (Slider.MOUSEMOTION pos)
    = Some (s', r) ->
  (exists k : Z, Slider.value s' = IZR k * Slider.step s)
  \/ Slider.value s' = Slider.min_val s
  \/ Slider.value s' = Slider.max_val s.
Proof.
  intros Hstep Ha. simpl. rewrite Ha.
  unfold Slider.dragged_value.
  destruct (decide (Slider.width (Slider.rect s) = 0%Z)); [done|].
  rewrite R_is_zero_false by done. intros [= <- _].
  cbn [Slider.value Slider.set_value].
  rewrite R_py_max, R_py_min. unfold Rmax, Rmin.
  repeat destruct (Rle_dec _ _); eauto.
Qed.

(** The gravity slider, step [0.1], dragged to the pixel [200]. *)
Lemma dragged_value_quantised_witness :
  exists s',
    Slider.handle_event round_half_even no_hit (grabbed_slider 1 100 50 0.1)
      (Slider.MOUSEMOTION (200, 365)%Z) = Some (s', true)
    /\ ((exists k : Z, Slider.value s' = IZR k * 0.1)
        \/ Slider.value s' = 1 \/ Slider.value s' = 100).
Proof.
  eexists. split; [reflexivity|].
  refine (dragged_value_quantised round_half_even no_hit
            (grabbed_slider 1 100 50 0.1) _ (200, 365)%Z true _ eq_refl eq_refl).
  simpl. lra.
Defined.

(** X19.  While the value lies between [min_val] and [max_val] (with
    [min_val < max_val]) and the track is not of negative width, the handle
    is drawn on the track: its abscissa is between the left and the right
    end of the rectangle. *)
Theorem handle_on_track (s : Slider.t R) :
  Slider.min_val s < Slider.max_val s ->
  Slider.min_val s <= Slider.value s <= Slider.max_val s ->
  (0 <= Slider.width (Slider.rect s))%Z ->
  exists hx,
    Slider.handle_x s = Some hx
    /\ IZR (Slider.x (Slider.rect s)) <= hx
       <= IZR (Slider.x (Slider.rect s) + Slider.width (Slider.rect s)).
Proof.
  intros Hlt Hin Hw. unfold Slider.handle_x.
  rewrite R_is_zero_false by (simpl; lra). eexists. split; [reflexivity|].
  simpl.
  assert (HW : 0 <= IZR (Slider.width (Slider.rect s))) by (by apply IZR_le).
  assert (Hq : 0 <= (Slider.value s - Slider.min_val s)
                    / (Slider.max_val s - Slider.min_val s) <= 1).
  { split.
    - apply Rle_mult_inv_pos; lra.
    - apply (Rmult_le_reg_r (Slider.max_val s - Slider.min_val s)); [lra|].
      unfold Rdiv. rewrite Rmult_assoc, Rinv_l by lra. lra. }
  rewrite plus_IZR. nra.
Qed.

Lemma handle_on_track_witness :
  exists hx,
    Slider.handle_x (fresh_slider 1 100 50 0.1) = Some hx
    /\ 50 <= hx <= 350.
Proof.
  destruct (handle_on_track (fresh_slider 1 100 50 0.1))
    as (hx & Hx & Hin); [simpl; lra|simpl; lra|simpl; lia|].
  exists hx. split; [done|].
  cbn [Slider.x Slider.width Slider.rect fresh_slider] in Hin.
  rewrite plus_IZR in Hin. lra.
Defined.


End FurtherProperties.
